(** * app_scheduler.py: token store, vote client, batch runner, scheduler,
      control surface

    A shallow embedding of [app_scheduler.py].  Python text is a list of
    Unicode code points, the two files the program owns ([tokens.json] and
    [run_tokens.log]) live in an explicit [world], and every Python function
    that touches them is a computation in a state-and-exception monad, so that
    [try]/[except] is a combinator and an uncaught exception is a value.

    Conventions:
    - exceptions are those [except Exception] catches;
    - a file is the text its bytes decode to, read in text mode (universal
      newlines) and written as on a POSIX host; a write either replaces the
      whole file or raises and leaves it;
    - the clock, [uuid4] and the remote end are oracles of the environment;
    - [json.loads] is the decoder of the standard library, numbers kept as
      their text (the interpreter's limit on the digits of an integer is not
      modelled, and nesting is cut at the default recursion limit);
      [json.dumps] is modelled for lists of strings, the only values the
      program saves;
    - the [schedule] package is not part of the source: the thread of
      [scheduler_loop] is modelled for the instants at which it reads the
      clock, given as input, with the one daily job as the specification
      describes it; the threads of several sessions (lines 116-123) are not
      modelled. *)

From Stdlib Require Import String Ascii DecimalString.
From Stdlib Require Import List NArith Arith Bool Lia.
Import ListNotations.
Set Warnings "-register-all".
Local Open Scope list_scope.
Local Open Scope N_scope.

(** ** Python text *)

(** A [str] is a sequence of code points. *)
Definition char : Type := N.
Definition str : Type := list char.

(** ASCII literals of the source, written as Rocq strings. *)
Definition u (s : string) : str := map N_of_ascii (list_ascii_of_string s).
Arguments u s%_string.

Definition str_eqb (a b : str) : bool :=
  if list_eq_dec N.eq_dec a b then true else false.

(** [str.isspace] for one character: the code points CPython classifies as
    whitespace ([_PyUnicode_IsWhitespace]). *)
Definition isspace (c : char) : bool :=
  ((9 <=? c) && (c <=? 13)) || ((28 <=? c) && (c <=? 32))
  || (c =? 133) || (c =? 160) || (c =? 5760)
  || ((8192 <=? c) && (c <=? 8202))
  || (c =? 8232) || (c =? 8233) || (c =? 8239) || (c =? 8287) || (c =? 12288).

Fixpoint lstrip (s : str) : str :=
  match s with
  | [] => []
  | c :: r => if isspace c then lstrip r else s
  end.

(** [s.strip()] *)
Definition strip (s : str) : str := rev (lstrip (rev (lstrip s))).

(** The line boundaries of [str.splitlines]: LF, VT, FF, CR, FS, GS, RS, NEL,
    LS and PS; CR LF counts once. *)
Definition is_linebreak (c : char) : bool :=
  ((10 <=? c) && (c <=? 13)) || ((28 <=? c) && (c <=? 30))
  || (c =? 133) || (c =? 8232) || (c =? 8233).

(** [s.splitlines()]: the lines without their terminators; a terminator at
    the very end opens no further line. *)
Fixpoint splitlines (s : str) : list str :=
  match s with
  | [] => []
  | c :: r =>
      if is_linebreak c then
        match r with
        | d :: r' => if (c =? 13) && (d =? 10) then [] :: splitlines r'
                     else [] :: splitlines r
        | [] => [[]]
        end
      else
        match splitlines r with
        | [] => [[c]]
        | l :: ls => (c :: l) :: ls
        end
  end.

(** [s[:n]] for a non-negative literal [n]. *)
Definition slice_to (n : nat) (s : str) : str := firstn n s.

(** [str(n)] for a non-negative [int], as an f-string renders it. *)
Definition str_of_nat (n : nat) : str := u (NilZero.string_of_uint (Nat.to_uint n)).

(** Is [p] a contiguous part of [s]?  ([p in s]) *)
Fixpoint starts_with (p s : str) : bool :=
  match p, s with
  | [], _ => true
  | _ :: _, [] => false
  | a :: p', b :: s' => (a =? b) && starts_with p' s'
  end.

Fixpoint contains (p s : str) : bool :=
  starts_with p s || match s with [] => false | _ :: r => contains p r end.

(** ** Exceptions *)

(** An exception is its class name and the text [str(e)] gives. *)
Inductive exn : Type := Exn (cls : string) (msg : str).

Definition str_of_exn (e : exn) : str := let 'Exn _ m := e in m.

Inductive res (A : Type) : Type :=
| Ok (a : A)
| Raise (e : exn).
Arguments Ok {A} a.
Arguments Raise {A} e.

Definition map_res {A B : Type} (f : A -> B) (r : res A) : res B :=
  match r with
  | Ok a => Ok (f a)
  | Raise e => Raise e
  end.

(** ** The [json] module *)

(** What [json.loads] can return.  A number is kept as the text that denotes
    it, an object as its members in source order. *)
Inductive json : Type :=
| JNull
| JBool (b : bool)
| JNum (lexeme : str)
| JStr (s : str)
| JArr (items : list json)
| JObj (members : list (str * json)).

(** *** [json.dumps(tokens, ensure_ascii=False, indent=2)] *)

Definition hexdigit (d : N) : char := if d <? 10 then 48 + d else 87 + d.

(** [ESCAPE_DCT]: the quote, the backslash and the control characters are
    escaped, everything else is copied ([ensure_ascii=False]). *)
Definition escape_char (c : char) : str :=
  if c =? 34 then [92; 34]
  else if c =? 92 then [92; 92]
  else if c =? 10 then [92; 110]
  else if c =? 13 then [92; 114]
  else if c =? 9 then [92; 116]
  else if c =? 8 then [92; 98]
  else if c =? 12 then [92; 102]
  else if c <? 32 then [92; 117; 48; 48; hexdigit (c / 16); hexdigit (c mod 16)]
  else [c].

Definition encode_basestring (s : str) : str :=
  [34] ++ flat_map escape_char s ++ [34].

(** A list of strings with [indent=2]: one item per line, separated by a
    comma and a newline; the empty list is [[]]. *)
Definition item_sep : str := [44; 10; 32; 32].

Definition json_dumps (tokens : list str) : str :=
  match tokens with
  | [] => [91; 93]
  | t :: ts =>
      [91; 10; 32; 32] ++ encode_basestring t
      ++ flat_map (fun x => item_sep ++ encode_basestring x) ts
      ++ [10; 93]
  end.

(** *** [json.loads] *)

Definition decode_error (m : string) : exn := Exn "JSONDecodeError" (u m).

Definition is_json_ws (c : char) : bool :=
  (c =? 32) || (c =? 9) || (c =? 10) || (c =? 13).

Fixpoint skip_ws (s : str) : str :=
  match s with
  | [] => []
  | c :: r => if is_json_ws c then skip_ws r else s
  end.

Fixpoint strip_prefix (p s : str) : option str :=
  match p, s with
  | [], _ => Some s
  | _ :: _, [] => None
  | a :: p', b :: s' => if a =? b then strip_prefix p' s' else None
  end.

Definition hexval (c : char) : option N :=
  if (48 <=? c) && (c <=? 57) then Some (c - 48)
  else if (97 <=? c) && (c <=? 102) then Some (c - 87)
  else if (65 <=? c) && (c <=? 70) then Some (c - 55)
  else None.

Definition hex4 (a b c d : char) : option N :=
  match hexval a, hexval b, hexval c, hexval d with
  | Some x, Some y, Some z, Some w => Some (((x * 16 + y) * 16 + z) * 16 + w)
  | _, _, _, _ => None
  end.

Definition is_high_surrogate (c : N) : bool := (55296 <=? c) && (c <=? 56319).
Definition is_low_surrogate (c : N) : bool := (56320 <=? c) && (c <=? 57343).
Definition join_surrogates (hi lo : N) : N :=
  65536 + ((hi - 55296) * 1024 + (lo - 56320)).

(** [BACKSLASH]: the one-letter escapes. *)
Definition unescape (e : char) : option char :=
  if e =? 34 then Some 34
  else if e =? 92 then Some 92
  else if e =? 47 then Some 47
  else if e =? 98 then Some 8
  else if e =? 102 then Some 12
  else if e =? 110 then Some 10
  else if e =? 114 then Some 13
  else if e =? 116 then Some 9
  else None.

Definition cons_char (c : char) (k : res (str * str)) : res (str * str) :=
  map_res (fun '(cs, rest) => (c :: cs, rest)) k.

(** [scanstring] in strict mode, entered after the opening quote: the decoded
    string and what follows the closing quote. *)
Fixpoint scanstring (s : str) : res (str * str) :=
  match s with
  | [] => Raise (decode_error "Unterminated string starting at")
  | c :: r =>
      if c =? 34 then Ok ([], r)
      else if c =? 92 then
        match r with
        | [] => Raise (decode_error "Unterminated string starting at")
        | e :: r1 =>
            if e =? 117 then
              match r1 with
              | h1 :: h2 :: h3 :: h4 :: r2 =>
                  match hex4 h1 h2 h3 h4 with
                  | None => Raise (decode_error "Invalid \uXXXX escape")
                  | Some uni =>
                      match r2 with
                      | b :: v :: l1 :: l2 :: l3 :: l4 :: r3 =>
                          if is_high_surrogate uni && (b =? 92) && (v =? 117) then
                            match hex4 l1 l2 l3 l4 with
                            | None => Raise (decode_error "Invalid \uXXXX escape")
                            | Some uni2 =>
                                if is_low_surrogate uni2
                                then cons_char (join_surrogates uni uni2) (scanstring r3)
                                else cons_char uni (scanstring r2)
                            end
                          else cons_char uni (scanstring r2)
                      | _ => cons_char uni (scanstring r2)
                      end
                  end
              | _ => Raise (decode_error "Invalid \uXXXX escape")
              end
            else
              match unescape e with
              | Some c' => cons_char c' (scanstring r1)
              | None => Raise (decode_error "Invalid \escape")
              end
        end
      else if c <? 32 then Raise (decode_error "Invalid control character at")
      else cons_char c (scanstring r)
  end.

(** [NUMBER_RE]: an optional minus sign, then 0 or a digit string without a
    leading zero; an optional fraction (a dot and at least one digit); an
    optional exponent (e or E, an optional sign, at least one digit). *)
Definition is_digit (c : char) : bool := (48 <=? c) && (c <=? 57).

Fixpoint span_digits (s : str) : str * str :=
  match s with
  | [] => ([], [])
  | c :: r =>
      if is_digit c then let (ds, rest) := span_digits r in (c :: ds, rest)
      else ([], s)
  end.

Definition int_part (s : str) : option (str * str) :=
  let (sign, s1) :=
    match s with
    | c :: r => if c =? 45 then ([45], r) else ([], s)
    | [] => ([], [])
    end in
  match s1 with
  | c :: r =>
      if c =? 48 then Some (sign ++ [48], r)
      else if is_digit c then
        let (ds, rest) := span_digits r in Some (sign ++ c :: ds, rest)
      else None
  | [] => None
  end.

Definition frac_part (s : str) : str * str :=
  match s with
  | c :: r =>
      if c =? 46 then
        match span_digits r with
        | ([], _) => ([], s)
        | (ds, rest) => (46 :: ds, rest)
        end
      else ([], s)
  | [] => ([], [])
  end.

Definition exp_part (s : str) : str * str :=
  match s with
  | c :: r =>
      if (c =? 101) || (c =? 69) then
        let (sign, r1) :=
          match r with
          | d :: r' => if (d =? 45) || (d =? 43) then ([d], r') else ([], r)
          | [] => ([], [])
          end in
        match span_digits r1 with
        | ([], _) => ([], s)
        | (ds, rest) => (c :: sign ++ ds, rest)
        end
      else ([], s)
  | [] => ([], [])
  end.

Definition match_number (s : str) : option (str * str) :=
  match int_part s with
  | None => None
  | Some (i, r) =>
      let (f, r1) := frac_part r in
      let (e, r2) := exp_part r1 in
      Some (i ++ f ++ e, r2)
  end.

(** The items of an array, entered at its first value: values separated by
    commas up to the closing bracket.  [gas] bounds the number of items; the
    caller passes the length of the text, and each item uses up at least one
    character. *)
Fixpoint array_items (scan : str -> res (json * str)) (gas : nat) (s : str)
  : res (list json * str) :=
  match gas with
  | O => Raise (decode_error "Expecting value")
  | S g =>
      match scan s with
      | Raise e => Raise e
      | Ok (v, r) =>
          match skip_ws r with
          | [] => Raise (decode_error "Expecting ',' delimiter")
          | c :: r' =>
              if c =? 93 then Ok ([v], r')
              else if c =? 44 then
                map_res (fun '(vs, rest) => (v :: vs, rest))
                        (array_items scan g (skip_ws r'))
              else Raise (decode_error "Expecting ',' delimiter")
          end
      end
  end.

(** The members of an object, entered at the quote of its first key. *)
Fixpoint object_members (scan : str -> res (json * str)) (gas : nat) (s : str)
  : res (list (str * json) * str) :=
  match gas with
  | O => Raise (decode_error "Expecting property name enclosed in double quotes")
  | S g =>
      match s with
      | [] => Raise (decode_error "Expecting property name enclosed in double quotes")
      | q :: s1 =>
          if q =? 34 then
            match scanstring s1 with
            | Raise e => Raise e
            | Ok (key, r) =>
                match skip_ws r with
                | [] => Raise (decode_error "Expecting ':' delimiter")
                | c :: r1 =>
                    if c =? 58 then
                      match scan (skip_ws r1) with
                      | Raise e => Raise e
                      | Ok (v, r2) =>
                          match skip_ws r2 with
                          | [] => Raise (decode_error "Expecting ',' delimiter")
                          | d :: r3 =>
                              if d =? 125 then Ok ([(key, v)], r3)
                              else if d =? 44 then
                                map_res (fun '(ms, rest) => ((key, v) :: ms, rest))
                                        (object_members scan g (skip_ws r3))
                              else Raise (decode_error "Expecting ',' delimiter")
                          end
                      end
                    else Raise (decode_error "Expecting ':' delimiter")
                end
            end
          else Raise (decode_error "Expecting property name enclosed in double quotes")
      end
  end.

(** [scan_once]: one JSON value at the head of [s] and the text after it.
    Entering an array or an object costs one level of [depth]; at level 0 the
    interpreter raises [RecursionError]. *)
Fixpoint scan_once (depth : nat) (s : str) : res (json * str) :=
  match s with
  | [] => Raise (decode_error "Expecting value")
  | c :: r =>
      if c =? 34 then map_res (fun '(t, rest) => (JStr t, rest)) (scanstring r)
      else if c =? 123 then
        match depth with
        | O => Raise (Exn "RecursionError" (u "maximum recursion depth exceeded"))
        | S d =>
            match skip_ws r with
            | [] => Raise (decode_error "Expecting property name enclosed in double quotes")
            | c' :: r' =>
                if c' =? 125 then Ok (JObj [], r')
                else map_res (fun '(ms, rest) => (JObj ms, rest))
                             (object_members (scan_once d) (length r) (skip_ws r))
            end
        end
      else if c =? 91 then
        match depth with
        | O => Raise (Exn "RecursionError" (u "maximum recursion depth exceeded"))
        | S d =>
            match skip_ws r with
            | [] => Raise (decode_error "Expecting value")
            | c' :: r' =>
                if c' =? 93 then Ok (JArr [], r')
                else map_res (fun '(vs, rest) => (JArr vs, rest))
                             (array_items (scan_once d) (length r) (skip_ws r))
            end
        end
      else
        match strip_prefix (u "null") s with
        | Some rest => Ok (JNull, rest)
        | None =>
        match strip_prefix (u "true") s with
        | Some rest => Ok (JBool true, rest)
        | None =>
        match strip_prefix (u "false") s with
        | Some rest => Ok (JBool false, rest)
        | None =>
        match match_number s with
        | Some (lexeme, rest) => Ok (JNum lexeme, rest)
        | None =>
        match strip_prefix (u "NaN") s with
        | Some rest => Ok (JNum (u "NaN"), rest)
        | None =>
        match strip_prefix (u "Infinity") s with
        | Some rest => Ok (JNum (u "Infinity"), rest)
        | None =>
        match strip_prefix (u "-Infinity") s with
        | Some rest => Ok (JNum (u "-Infinity"), rest)
        | None => Raise (decode_error "Expecting value")
        end end end end end end end
  end.

(** [sys.getrecursionlimit()] of a stock interpreter. *)
Definition recursion_limit : nat := 1000.

(** [json.loads(s)] for a [str]: no byte-order mark, one value between
    optional whitespace, nothing after it. *)
Definition json_loads (s : str) : res json :=
  if starts_with [65279] s
  then Raise (decode_error "Unexpected UTF-8 BOM (decode using utf-8-sig)")
  else
    match scan_once recursion_limit (skip_ws s) with
    | Raise e => Raise e
    | Ok (v, r) =>
        match skip_ws r with
        | [] => Ok v
        | _ :: _ => Raise (decode_error "Extra data")
        end
    end.

(** A scanner that, when it reads a value, uses up some of the text. *)
Definition consumes (scan : str -> res (json * str)) : Prop :=
  forall s v r, scan s = Ok (v, r) -> (length r < length s)%nat.

(** The program treats what it loaded as a list of strings.  [as_tokens]
    recognises the values for which that is so. *)
Fixpoint all_strings (items : list json) : option (list str) :=
  match items with
  | [] => Some []
  | JStr s :: rest =>
      match all_strings rest with
      | Some l => Some (s :: l)
      | None => None
      end
  | _ :: _ => None
  end.

Definition as_tokens (v : json) : option (list str) :=
  match v with
  | JArr items => all_strings items
  | _ => None
  end.

Definition of_tokens (tokens : list str) : json := JArr (map JStr tokens).

(** ** Files, the outside world and the monad *)

(** [tokens.json] and [run_tokens.log].  A file is given by the text its
    bytes decode to; a path that exists but cannot be read as UTF-8 text (a
    directory, a permission, bytes that do not decode) is [Unreadable]; a
    path that cannot even be examined (no search permission on its
    directory, an input/output error: [stat] fails with an [OSError] other
    than the not-found ones) is [Inaccessible]. *)
Inductive path : Type := TOKENS_FILE | LOG_FILE.

Inductive file : Type :=
| Absent
| Unreadable (e : exn)
| Inaccessible (e : exn)
| Holds (text : str).

(** What [requests.post] does: a response, or an exception.  Of a response
    [r] the program uses [r.status_code], [r.text] and [r.json()], which
    returns a value or raises; [requests] decodes the text and the JSON from
    the same bytes by rules of their own, so both belong to the response. *)
Inductive http_outcome : Type :=
| Responds (status_code : nat) (text : str) (parsed : res json)
| Fails (e : exn).

(** What the program cannot decide: the clock, the random identifiers and
    the remote end.  Each is asked by the number of earlier questions. *)
Record env : Type := Env {
  isoformat_now : nat -> str;
  uuid4_str : nat -> str;
  remote : nat -> str -> json -> list (str * str) -> http_outcome
}.

(** The state the program reads and writes.  [write_faults] lists what the
    coming calls of [write_text] do: [None] writes, [Some e] raises [e] and
    leaves the file as it was; past the end of the list every write
    succeeds. *)
Record world : Type := World {
  tokens_file : file;
  log_file : file;
  write_faults : list (option exn);
  clock_reads : nat;
  uuid_draws : nat;
  posts : nat
}.

Definition M (A : Type) : Type := world -> res A * world.

Definition ret {A : Type} (a : A) : M A := fun w => (Ok a, w).

Definition bind {A B : Type} (m : M A) (k : A -> M B) : M B :=
  fun w =>
    match m w with
    | (Ok a, w') => k a w'
    | (Raise e, w') => (Raise e, w')
    end.

Definition raise {A : Type} (e : exn) : M A := fun w => (Raise e, w).

Definition lift {A : Type} (r : res A) : M A := fun w => (r, w).

(** [try: body  except Exception as e: handler e] *)
Definition try_except {A : Type} (body : M A) (handler : exn -> M A) : M A :=
  fun w =>
    match body w with
    | (Ok a, w') => (Ok a, w')
    | (Raise e, w') => handler e w'
    end.

Declare Scope py_scope.
Delimit Scope py_scope with py.
Notation "x <- m ;; k" := (bind m (fun x => k))
  (at level 61, m at next level, right associativity) : py_scope.
Notation "' pat <- m ;; k" := (bind m (fun x => match x with pat => k end))
  (at level 61, pat pattern, m at next level, right associativity) : py_scope.
Notation "m ;; k" := (bind m (fun _ => k))
  (at level 61, right associativity) : py_scope.
Local Open Scope py_scope.

Definition get_file (p : path) (w : world) : file :=
  match p with
  | TOKENS_FILE => tokens_file w
  | LOG_FILE => log_file w
  end.

Definition set_file (p : path) (f : file) (w : world) : world :=
  match p with
  | TOKENS_FILE =>
      World f (log_file w) (write_faults w) (clock_reads w) (uuid_draws w) (posts w)
  | LOG_FILE =>
      World (tokens_file w) f (write_faults w) (clock_reads w) (uuid_draws w) (posts w)
  end.

Definition set_faults (fs : list (option exn)) (w : world) : world :=
  World (tokens_file w) (log_file w) fs (clock_reads w) (uuid_draws w) (posts w).

(** [Path.exists()]: [False] when [stat] reports that there is no such
    path, [True] when it succeeds; any other [OSError] of [stat] is raised
    again. *)
Definition path_exists (p : path) : M bool :=
  fun w =>
    match get_file p w with
    | Absent => (Ok false, w)
    | Inaccessible e => (Raise e, w)
    | Unreadable _ | Holds _ => (Ok true, w)
    end.

(** Text mode translates CR LF and CR to LF on reading. *)
Fixpoint universal_newlines (s : str) : str :=
  match s with
  | [] => []
  | c :: r =>
      if c =? 13 then
        10 :: match r with
              | d :: r' => if d =? 10 then universal_newlines r'
                           else universal_newlines r
              | [] => []
              end
      else c :: universal_newlines r
  end.

(** [Path.read_text(encoding="utf-8")] *)
Definition read_text (p : path) : M str :=
  fun w =>
    match get_file p w with
    | Absent => (Raise (Exn "FileNotFoundError" (u "No such file or directory")), w)
    | Unreadable e | Inaccessible e => (Raise e, w)
    | Holds text => (Ok (universal_newlines text), w)
    end.

(** [Path.write_text(text, encoding="utf-8")]: the whole file is replaced. *)
Definition write_text (p : path) (text : str) : M unit :=
  fun w =>
    match write_faults w with
    | Some e :: fs => (Raise e, set_faults fs w)
    | None :: fs => (Ok tt, set_file p (Holds text) (set_faults fs w))
    | [] => (Ok tt, set_file p (Holds text) w)
    end.

Section Program.

Variable E : env.

(** [datetime.now().isoformat()] *)
Definition now : M str :=
  fun w =>
    (Ok (isoformat_now E (clock_reads w)),
     World (tokens_file w) (log_file w) (write_faults w)
           (S (clock_reads w)) (uuid_draws w) (posts w)).

(** [str(uuid4())] *)
Definition uuid4 : M str :=
  fun w =>
    (Ok (uuid4_str E (uuid_draws w)),
     World (tokens_file w) (log_file w) (write_faults w)
           (clock_reads w) (S (uuid_draws w)) (posts w)).

(** [requests.post(url, json=payload, headers=headers, timeout=30)] *)
Definition requests_post (url : str) (payload : json) (headers : list (str * str))
  : M (nat * str * res json) :=
  fun w =>
    let w' := World (tokens_file w) (log_file w) (write_faults w)
                    (clock_reads w) (uuid_draws w) (S (posts w)) in
    match remote E (posts w) url payload headers with
    | Responds status_code text parsed => (Ok (status_code, text, parsed), w')
    | Fails e => (Raise e, w')
    end.

(** *** Helpers (lines 34-50) *)

Definition load_tokens : M json :=
  present <- path_exists TOKENS_FILE ;;
  if present then
    try_except
      (text <- read_text TOKENS_FILE ;; lift (json_loads text))
      (fun _ => ret (JArr []))
  else ret (JArr []).

Definition save_tokens (tokens : list str) : M unit :=
  write_text TOKENS_FILE (json_dumps tokens).

Definition append_log (text : str) : M unit :=
  stamp <- now ;;
  let line := stamp ++ u " - " ++ text ++ [10] in
  present <- path_exists LOG_FILE ;;
  if present then
    old <- read_text LOG_FILE ;;
    write_text LOG_FILE (old ++ line)
  else write_text LOG_FILE line.

(** *** API calls (lines 54-85) *)

Definition API_URL : str :=
  u "https://eventista-platform-api.1vote.vn/v2/web/tenant/nFkFqZ/event/EVENT_FiZrv/voting-free".

Definition remove_char (c : char) (s : str) : str :=
  filter (fun d => negb (d =? c)) s.

(** The dictionary [build_headers] returns, [id] being [str(uuid4())]. *)
Definition headers_of (id token : str) : list (str * str) :=
  [ (u "apigw-requestid", slice_to 16 (remove_char 45 id));
    (u "Origin", u "https://giaithuongngoisaoxanh.1vote.vn");
    (u "Referer", u "https://giaithuongngoisaoxanh.1vote.vn/");
    (u "x-eventista-check-token", []);
    (u "Content-Type", u "application/json");
    (u "Authorization", u "Bearer " ++ token) ].

Definition build_headers (token : str) : M (list (str * str)) :=
  id <- uuid4 ;;
  ret (headers_of id token).

Definition payload : json :=
  JObj [ (u "paymentType", JStr (u "free"));
         (u "pointPackageId", JStr (u "FREE"));
         (u "productGroupId", JStr (u "JPYxH"));
         (u "productId", JStr (u "8FJf"));
         (u "source",
          JObj [ (u "screen", JStr (u "candidate-detail"));
                 (u "pointPackage",
                  JObj [ (u "amount", JNum (u "0"));
                         (u "id", JStr (u "FREE"));
                         (u "point", JStr (u "100")) ]) ]) ].

(** The third component of what [run_request_for_token] returns: the parsed
    response, the raw response text, or the text of an exception. *)
Inductive body : Type :=
| Parsed (v : json)
| Raw (text : str).

(** The text of the log line for a response (line 78), and for an
    exception (line 84). *)
Definition response_line (token : str) (status_code : nat) (text : str) : str :=
  u "token[:8]=" ++ slice_to 8 token ++ u "... status=" ++ str_of_nat status_code
  ++ u " body=" ++ slice_to 300 text.

Definition exception_line (token : str) (e : exn) : str :=
  u "token[:8]=" ++ slice_to 8 token ++ u "... EXCEPTION: " ++ str_of_exn e.

Definition run_request_for_token (token : str) : M (bool * option nat * body) :=
  try_except
    (headers <- build_headers token ;;
     '(status_code, text, parsed) <- requests_post API_URL payload headers ;;
     append_log (response_line token status_code text) ;;
     try_except
       (v <- lift parsed ;; ret (true, Some status_code, Parsed v))
       (fun _ => ret (true, Some status_code, Raw text)))
    (fun e =>
       append_log (exception_line token e) ;;
       ret (false, None, Raw (str_of_exn e))).

(** *** Run all tokens (lines 89-97) *)

Record RunResult : Type := mkRunResult {
  token_prefix : str;
  ok : bool;
  status : option nat;
  run_body : body
}.

(** The [for] loop of lines 93-95, [results] being what was appended so
    far. *)
Fixpoint for_tokens (tokens : list str) (results : list RunResult)
  : M (list RunResult) :=
  match tokens with
  | [] => ret results
  | t :: rest =>
      '(ok, status, body) <- run_request_for_token t ;;
      for_tokens rest
        (results ++ [mkRunResult (slice_to 8 t ++ u "...") ok status body])
  end.

(** Lines 91-97, for the list [tokens] that line 90 loaded. *)
Definition run_batch (tokens : list str) : M (list RunResult) :=
  append_log (u "RUN ALL start tokens_count=" ++ str_of_nat (length tokens)) ;;
  results <- for_tokens tokens [] ;;
  append_log (u "RUN ALL end") ;;
  ret results.

(** [run_all_tokens].  The file may hold JSON that is no list of strings;
    what Python's dynamic typing makes of the loop then is not modelled, and
    the run has no outcome here ([None]). *)
Definition run_all_tokens (w : world) : option (res (list RunResult) * world) :=
  match load_tokens w with
  | (Ok v, w') =>
      match as_tokens v with
      | Some tokens => Some (run_batch tokens w')
      | None => None
      end
  | (Raise e, w') => Some (Raise e, w')
  end.

(** *** Control surface (lines 132-182) *)

(** What the page shows in answer to a click. *)
Inductive ui : Type :=
| Warning (msg : str)
| Success (msg : str)
| Error (msg : str)
| Info (msg : str)
| ShowText (b : body)
| ShowJson (b : body)
| ShowResults (results : list RunResult)
| Rerun.

(** Line 138: the stripped non-blank lines of the text area. *)
Definition new_tokens (token_input : str) : list str :=
  map strip
      (filter (fun t => match strip t with [] => false | _ :: _ => true end)
              (splitlines token_input)).

(** Lines 142-148.  [existing] is the set; only membership in it is ever
    asked, so a list stands for it. *)
Fixpoint add_loop (new tokens existing : list str) (added : nat)
  : list str * nat :=
  match new with
  | [] => (tokens, added)
  | t :: rest =>
      if existsb (str_eqb t) existing
      then add_loop rest tokens existing added
      else add_loop rest (tokens ++ [t]) (t :: existing) (S added)
  end.

Definition add_tokens (tokens new : list str) : list str * nat :=
  add_loop new tokens tokens 0%nat.

Definition msg_no_token_entered : str :=
  u "Ch" ++ [432] ++ u "a nh" ++ [7853] ++ u "p token n" ++ [224] ++ u "o.".

Definition msg_added (added total : nat) : str :=
  [272; 227] ++ u " th" ++ [234] ++ u "m " ++ str_of_nat added
  ++ u " token. T" ++ [7893] ++ u "ng: " ++ str_of_nat total.

(** The handler of the save button (lines 137-152): the list in memory
    afterwards and what the page shows. *)
Definition on_save_click (tokens : list str) (token_input : str)
  : M (list str * list ui) :=
  match new_tokens token_input with
  | [] => ret (tokens, [Warning msg_no_token_entered])
  | new =>
      let (tokens', added) := add_tokens tokens new in
      save_tokens tokens' ;;
      append_log (u "UI: Added " ++ str_of_nat added ++ u " tokens") ;;
      ret (tokens', [Success (msg_added added (length tokens')); Rerun])
  end.

(** [tokens.pop(i)] for an index that is not negative. *)
Definition list_pop (i : nat) (tokens : list str) : M (list str) :=
  if (i <? length tokens)%nat
  then ret (firstn i tokens ++ skipn (S i) tokens)
  else raise (Exn "IndexError" (u "pop index out of range")).

(** The click the page run answers.  A button exists only where the page
    draws it: [ClickDelete i] and [ClickTest i] name the buttons with the keys
    [del_i] and [test_i]. *)
Inductive event : Type :=
| ClickSave (token_input : str)
| ClickDelete (i : nat)
| ClickTest (i : nat)
| ClickRunAll
| NoClick.

Definition clicked_delete (ev : event) (i : nat) : bool :=
  match ev with ClickDelete k => (k =? i)%nat | _ => false end.

Definition clicked_test (ev : event) (i : nat) : bool :=
  match ev with ClickTest k => (k =? i)%nat | _ => false end.

Definition msg_test_ok (status : option nat) : str :=
  u "OK " ++ [8212] ++ u " status "
  ++ match status with Some n => str_of_nat n | None => u "None" end.

Definition msg_test_failed : str := u "L" ++ [7895] ++ u "i khi test".

(** The rows of the token list (lines 157-172): [rows] are the pairs
    [enumerate] has still to yield, from index [i] on. *)
Fixpoint token_rows (ev : event) (tokens : list str) (i : nat) (rows : list str)
  : M (list str * list ui) :=
  match rows with
  | [] => ret (tokens, [])
  | t :: more =>
      if clicked_delete ev i then
        tokens' <- list_pop i tokens ;;
        save_tokens tokens' ;;
        append_log (u "UI: Deleted token index " ++ str_of_nat i) ;;
        ret (tokens', [Rerun])
      else if clicked_test ev i then
        '(ok, status, body) <- run_request_for_token t ;;
        let shown := if ok : bool then [Success (msg_test_ok status); ShowJson body]
                     else [Error msg_test_failed; ShowText body] in
        '(tokens', below) <- token_rows ev tokens (S i) more ;;
        ret (tokens', shown ++ below)
      else token_rows ev tokens (S i) more
  end.

Definition token_list (ev : event) (tokens : list str) : M (list str * list ui) :=
  match tokens with
  | [] => ret (tokens, [Info (u "Ch" ++ [432] ++ u "a c" ++ [243] ++ u " token.")])
  | _ :: _ => token_rows ev tokens 0%nat tokens
  end.

End Program.

(** ** Vocabulary of the properties *)

(** The list the program works on in world [w]: what [load_tokens] returns
    there, when that is a list of strings. *)
Definition stored_tokens (w : world) : option (list str) :=
  match load_tokens w with
  | (Ok v, _) => as_tokens v
  | (Raise _, _) => None
  end.

(** The log sink works: the log can be read back and no write is going to
    fail. *)
Definition sink_ok (w : world) : bool :=
  match log_file w with Absent | Holds _ => true | _ => false end
  && forallb (fun f => match f with None => true | Some _ => false end)
             (write_faults w).

(** [e] is an exception the log sink of [w] can raise: what examining or
    reading the log raises, or the fault of one of the coming writes. *)
Definition sink_raises (w : world) (e : exn) : Prop :=
  log_file w = Unreadable e \/ log_file w = Inaccessible e
  \/ In (Some e) (write_faults w).

(** What the remote end does with the [j]-th request of [w]'s future, sent
    for [token]. *)
Definition outcome_at (E : env) (w : world) (j : nat) (token : str) : http_outcome :=
  remote E (posts w + j)%nat API_URL payload
         (headers_of (uuid4_str E (uuid_draws w + j)%nat) token).

(** What [run_request_for_token] returns for an outcome of the request. *)
Definition answer_of (o : http_outcome) : bool * option nat * body :=
  match o with
  | Responds status_code text parsed =>
      (true, Some status_code,
       match parsed with
       | Ok v => Parsed v
       | Raise _ => Raw text
       end)
  | Fails e => (false, None, Raw (str_of_exn e))
  end.

(** The [RunResult] that one outcome of the request amounts to (line 95). *)
Definition result_of (token : str) (o : http_outcome) : RunResult :=
  let '(ok, status, body) := answer_of o in
  mkRunResult (slice_to 8 token ++ u "...") ok status body.

(** One result per token, the [j]-th from the [j]-th request. *)
Fixpoint results_from (E : env) (w : world) (j : nat) (tokens : list str)
  : list RunResult :=
  match tokens with
  | [] => []
  | t :: rest => result_of t (outcome_at E w j t) :: results_from E w (S j) rest
  end.

(** The world once the headers are built and the request is sent. *)
Definition after_post (w : world) : world :=
  World (tokens_file w) (log_file w) (write_faults w)
        (clock_reads w) (S (uuid_draws w)) (S (posts w)).

(** The text of the log. *)
Definition log_text (w : world) : str :=
  match log_file w with Holds text => text | _ => [] end.

(** What the log reads as, [[]] when there is none. *)
Definition log_read (w : world) : str :=
  match log_file w with
  | Holds text => universal_newlines text
  | _ => []
  end.

(** The world after an [append_log text] that went through. *)
Definition logged (E : env) (text : str) (w : world) : world :=
  World (tokens_file w)
        (Holds (log_read w ++ isoformat_now E (clock_reads w) ++ u " - " ++ text ++ [10]))
        (tl (write_faults w)) (S (clock_reads w)) (uuid_draws w) (posts w).

(** The line [run_request_for_token] logs for an outcome of the request. *)
Definition line_of (token : str) (o : http_outcome) : str :=
  match o with
  | Responds status_code text _ => response_line token status_code text
  | Fails e => exception_line token e
  end.

(** How many copies of [t] a list holds. *)
Definition copies (t : str) (tokens : list str) : nat :=
  length (filter (str_eqb t) tokens).

(** [add] applied twice with the same new lines: the list and the count
    of the second application. *)
Definition add_twice (tokens new : list str) : list str * nat :=
  add_tokens (fst (add_tokens tokens new)) new.

(** [tokens] without the element at index [i]. *)
Definition without (i : nat) (tokens : list str) : list str :=
  firstn i tokens ++ skipn (S i) tokens.

(** *** Environments and worlds to run the program in *)

Definition quote (s : str) : str := [34] ++ s ++ [34].

Definition E0 : env :=
  Env (fun k => u "2024-01-01T02:00:0" ++ str_of_nat k)
      (fun _ => u "123e4567-e89b-12d3-a456-426614174000")
      (fun k _ _ _ =>
         match k with
         | 1%nat => Fails (Exn "ConnectionError" (u "connection refused"))
         | _ => Responds 200 (u "{" ++ quote (u "ok") ++ u ":true}")
                         (Ok (JObj [(u "ok", JBool true)]))
         end).

Definition w_empty : world := World Absent Absent [] 0 0 0.

Definition w_three : world :=
  World (Holds (json_dumps [u "token-one-aaaa"; u "token-two-bbbb"; u "token-three-cc"]))
        Absent [] 0 0 0.

(** A token file written by hand on one line: the JSON array of the
    string a. *)
Definition w_compact : world :=
  World (Holds ([91] ++ quote (u "a") ++ [93])) Absent [] 0 0 0.

(** A world whose next write fails and whose second write succeeds. *)
Definition disk_full : exn := Exn "OSError" (u "[Errno 28] No space left on device").

Definition w_faulty : world :=
  World Absent Absent [Some disk_full; None] 0 0 0.

(** The three tokens again, with a log that takes two lines and then
    refuses the third. *)
Definition w_three_faulty : world :=
  World (tokens_file w_three) Absent [None; None; Some disk_full] 0 0 0.

(** ** The scheduler's job (lines 101-103) *)

(** [job_run_all]: a log line, then the batch, whose results are dropped.
    As for [run_all_tokens], a store that is no list of strings has no
    outcome here. *)
Definition job_run_all (E : env) (w : world) : option (res unit * world) :=
  match append_log E (u "JOB_RUN_ALL triggered by scheduler") w with
  | (Ok _, w1) =>
      match run_all_tokens E w1 with
      | Some (Ok _, w2) => Some (Ok tt, w2)
      | Some (Raise e, w2) => Some (Raise e, w2)
      | None => None
      end
  | (Raise e, w1) => Some (Raise e, w1)
  end.

(** ** The scheduler thread (lines 105-112) *)

(** The thread meets time where [schedule] reads the clock: when the job is
    scheduled and at every [run_pending].  These instants are given to the
    model.  An instant of local time is a calendar day, counted from some
    first day, and a second of that day. *)
Record instant : Type := At { day : N; second : N }.

Definition before (a b : instant) : bool :=
  (day a <? day b) || ((day a =? day b) && (second a <? second b)).

Definition SCHEDULE_TIME : str := u "02:00".

(** Modelled from the spec: the schedule configuration is one wall-clock
    time-of-day string, hour:minute, in local time (section 6);
    [second_of_day] is the second of the day it names. *)
Definition second_of_day (hhmm : str) : N :=
  match hhmm with
  | [h1; h2; _; m1; m2] =>
      ((h1 - 48) * 10 + (h2 - 48)) * 3600 + ((m1 - 48) * 10 + (m2 - 48)) * 60
  | _ => 0
  end.

(** Modelled from the spec: the daily job is due once the configured time of
    day has been reached since it was scheduled or last fired (section 4.2).
    [next_due at_time t] is the first instant after [t] at that time of day:
    what [schedule.every().day.at(...).do(...)] makes the job's next run when
    called at [t], and what a run at [t] makes it afterwards. *)
Definition next_due (at_time : N) (t : instant) : instant :=
  if second t <? at_time then At (day t) at_time
  else At (day t + 1) at_time.

(** Modelled from the spec: [schedule.run_pending()] at instant [t] runs the
    job when its next run has been reached; an exception of the job leaves
    [run_pending], which catches none. *)
Definition should_run (next_run t : instant) : bool := negb (before t next_run).

(** The [while] loop of lines 109-111, for the instants [polls] at which
    [run_pending] is called before [stop_event] is set; [time.sleep(5)] is
    what keeps them apart.  [at_time] and [next_run] are the state of the one
    job that [schedule] holds.  [started] collects the instants at which the
    job was started and returned, a trace the code does not keep. *)
Fixpoint run_pending_loop (E : env) (at_time : N) (next_run : instant)
         (polls : list instant) (started : list instant) (w : world)
  : option (res (list instant) * world) :=
  match polls with
  | [] => Some (Ok started, w)
  | t :: rest =>
      if should_run next_run t then
        match job_run_all E w with
        | Some (Ok _, w') =>
            run_pending_loop E at_time (next_due at_time t) rest (started ++ [t]) w'
        | Some (Raise e, w') => Some (Raise e, w')
        | None => None
        end
      else run_pending_loop E at_time next_run rest started w
  end.

(** [scheduler_loop], entered at instant [start]. *)
Definition scheduler_loop (E : env) (start : instant) (polls : list instant)
           (w : world) : option (res (list instant) * world) :=
  let at_time := second_of_day SCHEDULE_TIME in
  let next_run := next_due at_time start in
  match append_log E (u "Scheduler thread started, scheduled daily at "
                        ++ SCHEDULE_TIME ++ u " (server local time).") w with
  | (Ok _, w1) =>
      match run_pending_loop E at_time next_run polls [] w1 with
      | Some (Ok started, w2) =>
          match append_log E (u "Scheduler thread stopping") w2 with
          | (Ok _, w3) => Some (Ok started, w3)
          | (Raise e, w3) => Some (Raise e, w3)
          end
      | other => other
      end
  | (Raise e, w1) => Some (Raise e, w1)
  end.

(** *** Vocabulary of the scheduler's properties *)

(** The polls at which [run_pending] finds the job due, as long as every job
    returns. *)
Fixpoint firings (at_time : N) (next_run : instant) (polls : list instant)
  : list instant :=
  match polls with
  | [] => []
  | t :: rest =>
      if should_run next_run t then t :: firings at_time (next_due at_time t) rest
      else firings at_time next_run rest
  end.

(** The polls are on time: each comes after the one before it ([p] at
    first, the instant of scheduling), and no later than the day of the first
    configured instant after that one.  Polls a few seconds apart are on
    time. *)
Fixpoint on_time (at_time : N) (p : instant) (polls : list instant) : bool :=
  match polls with
  | [] => true
  | q :: rest =>
      before p q && (day q <=? day (next_due at_time p))
      && on_time at_time q rest
  end.

(** Three stored tokens and a log whose seventh write fails, the writes
    after it succeeding again: with [E0] that is the write of the line that
    ends the first batch. *)
Definition w_log_hiccup : world :=
  World (tokens_file w_three) Absent
        [None; None; None; None; None; None; Some disk_full] 0 0 0.

(** ** Vocabulary of the further properties *)

(** One entry of the log as it reads back: the stamp of the [k]-th reading
    of the clock, the text, a newline. *)
Definition entry (E : env) (k : nat) (text : str) : str :=
  universal_newlines (isoformat_now E k ++ u " - " ++ text ++ [10]).

(** The entries a batch logs for its tokens, the first one stamped by the
    [c]-th reading of the clock, sent as the [p]-th request with the [d]-th
    identifier. *)
Fixpoint token_entries (E : env) (c p d : nat) (tokens : list str) : str :=
  match tokens with
  | [] => []
  | t :: rest =>
      entry E c (line_of t (remote E p API_URL payload
                                   (headers_of (uuid4_str E d) t)))
      ++ token_entries E (S c) (S p) (S d) rest
  end.

(** A result has a status exactly when it is a success, and a failure
    carries a text. *)
Definition well_formed (r : RunResult) : Prop :=
  (ok r = true /\ exists n, status r = Some n)
  \/ (ok r = false /\ status r = None /\ exists text, run_body r = Raw text).

(** What the page shows for a tested token (lines 167-172). *)
Definition shown_for_test (ok : bool) (status : option nat) (b : body) : list ui :=
  if ok then [Success (msg_test_ok status); ShowJson b]
  else [Error msg_test_failed; ShowText b].

(** A token as the save button stores it: not empty, no white space at
    either end, no line boundary inside. *)
Definition clean (t : str) : bool :=
  match t with [] => false | c :: _ => negb (isspace c) end
  && match rev t with [] => false | c :: _ => negb (isspace c) end
  && forallb (fun c => negb (is_linebreak c)) t.

(** The tokens one per line: each followed by a line feed but the last. *)
Fixpoint join_lines (tokens : list str) : str :=
  match tokens with
  | [] => []
  | [t] => t
  | t :: rest => t ++ 10 :: join_lines rest
  end.

(** The value a header dictionary gives for a name. *)
Fixpoint header (name : str) (headers : list (str * str)) : option str :=
  match headers with
  | [] => None
  | (k, v) :: rest => if str_eqb name k then Some v else header name rest
  end.

(** * Properties *)

(** ** The model at work *)

Example loads_compact :
  json_loads [91; 34; 97; 34; 44; 32; 34; 92; 117; 48; 48; 52; 49; 34; 93]
  = Ok (JArr [JStr [97]; JStr [65]]).
Proof. vm_compute. reflexivity. Qed.

Example loads_nested :
  json_loads (u " [ [1, -2.5e3, true, null, {}], {" ++ [34; 107; 34] ++ u " : []} ] ")
  = Ok (JArr [JArr [JNum (u "1"); JNum (u "-2.5e3"); JBool true; JNull; JObj []];
              JObj [(u "k", JArr [])]]).
Proof. vm_compute. reflexivity. Qed.

Example loads_bad :
  map (fun s => match json_loads s with Ok _ => true | Raise _ => false end)
      [u "[1,]"; u "01"; u "[1 2]"; u ""; u "nul"; u "[1] x"; u "-"; u "1."]
  = [false; false; false; false; false; false; false; false].
Proof. vm_compute. reflexivity. Qed.

Example new_tokens_trims :
  new_tokens (u "  abc123 " ++ [13; 10; 10] ++ u "xyz789" ++ [10; 32; 9; 10])
  = [u "abc123"; u "xyz789"].
Proof. reflexivity. Qed.

Example add_skips_known :
  add_tokens [u "a"] [u "b"; u "b"; u "a"; u "c"] = ([u "a"; u "b"; u "c"], 2%nat).
Proof. reflexivity. Qed.

(** A log that cannot take the line of a failed request stops the batch:
    the exception of the second [append_log] leaves [run_all_tokens]. *)
Example sink_failure_stops_batch :
  exists w', run_all_tokens E0 w_three_faulty = Some (Raise disk_full, w').
Proof. eexists. cbv. reflexivity. Qed.

Example schedule_time_in_seconds : second_of_day SCHEDULE_TIME = 7200.
Proof. reflexivity. Qed.

(** A thread that is not polled for a day fires late, and then again at the
    configured time of the same day. *)
Example late_poll_fires_twice :
  firings 7200 (next_due 7200 (At 0 0)) [At 0 7000; At 1 3600; At 1 7200]
  = [At 1 3600; At 1 7200].
Proof. reflexivity. Qed.

Example dumps_two :
  json_dumps [u "ab"; [9; 1; 34]]
  = [91; 10; 32; 32; 34; 97; 98; 34; 44; 10; 32; 32; 34; 92; 116; 92; 117; 48; 48; 48; 49; 92; 34; 34; 10; 93].
Proof. vm_compute. reflexivity. Qed.


(** ** Text *)

Lemma str_eqb_eq (a b : str) : str_eqb a b = true <-> a = b.
Proof.
  unfold str_eqb. destruct (list_eq_dec N.eq_dec a b); split; congruence.
Qed.

Lemma str_eqb_refl (a : str) : str_eqb a a = true.
Proof. now apply str_eqb_eq. Qed.

Lemma lstrip_blank (s : str) : forallb isspace s = true -> lstrip s = [].
Proof.
  induction s as [|c r IH]; simpl; [reflexivity|].
  intros H. apply andb_true_iff in H as [Hc Hr]. rewrite Hc. auto.
Qed.

Lemma strip_blank (s : str) : forallb isspace s = true -> strip s = [].
Proof.
  intros H. unfold strip. rewrite (lstrip_blank s H). reflexivity.
Qed.

(** Every line of a blank text is blank. *)
Lemma splitlines_blank (n : nat) :
  forall s, (length s <= n)%nat -> forallb isspace s = true ->
            Forall (fun l => forallb isspace l = true) (splitlines s).
Proof.
  induction n as [|n IH]; intros [|c r] Hlen Hs; simpl in *;
    try constructor; try lia.
  apply andb_true_iff in Hs as [Hc Hr].
  destruct (is_linebreak c).
  - destruct r as [|d r'].
    + repeat constructor.
    + destruct ((c =? 13) && (d =? 10)); constructor; try reflexivity.
      * simpl in Hr. apply andb_true_iff in Hr as [_ Hr'].
        apply IH; [simpl in Hlen; lia | exact Hr'].
      * apply IH; [lia | exact Hr].
  - assert (Hrec := IH r ltac:(lia) Hr).
    destruct (splitlines r) as [|l ls].
    + repeat constructor. simpl. now rewrite Hc.
    + inversion Hrec; subst. constructor; [|assumption].
      simpl. rewrite Hc. assumption.
Qed.

Lemma new_tokens_blank (s : str) : forallb isspace s = true -> new_tokens s = [].
Proof.
  intros H. unfold new_tokens.
  assert (Hl := splitlines_blank (length s) s (le_n _) H).
  induction Hl as [|l ls Hl _ IH]; simpl; [reflexivity|].
  rewrite (strip_blank l Hl). exact IH.
Qed.

(** ** [json.loads] after [json.dumps] *)

Lemma cons_char_ok (c : char) (s rest : str) :
  cons_char c (Ok (s, rest)) = Ok (c :: s, rest).
Proof. reflexivity. Qed.

Ltac below_32 c H :=
  destruct c as [|c]; [|do 6 (try destruct c as [c|c|])];
  try (vm_compute in H; discriminate H).

Lemma hex4_control (c : char) :
  (c <? 32) = true ->
  hex4 48 48 (hexdigit (c / 16)) (hexdigit (c mod 16)) = Some c.
Proof. intros H. below_32 c H; reflexivity. Qed.

Lemma control_not_surrogate (c : char) :
  (c <? 32) = true -> is_high_surrogate c = false.
Proof. intros H. below_32 c H; reflexivity. Qed.

(** One escaped character is read back as that character. *)
Lemma scanstring_escape_char (c : char) (tail : str) :
  scanstring (escape_char c ++ tail) = cons_char c (scanstring tail).
Proof.
  unfold escape_char.
  destruct (N.eqb_spec c 34) as [->|H34]; [reflexivity|].
  destruct (N.eqb_spec c 92) as [->|H92]; [reflexivity|].
  destruct (N.eqb_spec c 10) as [->|H10]; [reflexivity|].
  destruct (N.eqb_spec c 13) as [->|H13]; [reflexivity|].
  destruct (N.eqb_spec c 9) as [->|H9]; [reflexivity|].
  destruct (N.eqb_spec c 8) as [->|H8]; [reflexivity|].
  destruct (N.eqb_spec c 12) as [->|H12]; [reflexivity|].
  destruct (c <? 32) eqn:Hlt.
  - cbn [app scanstring N.eqb Pos.eqb].
    rewrite (hex4_control c Hlt), (control_not_surrogate c Hlt).
    cbn [andb].
    destruct tail as [|? [|? [|? [|? [|? [|? ?]]]]]]; reflexivity.
  - cbn [app scanstring].
    apply N.eqb_neq in H34, H92. rewrite H34, H92, Hlt. reflexivity.
Qed.

Lemma scanstring_escaped (s rest : str) :
  scanstring (flat_map escape_char s ++ 34 :: rest) = Ok (s, rest).
Proof.
  induction s as [|c s IH]; [reflexivity|].
  cbn [flat_map]. rewrite <- app_assoc, scanstring_escape_char, IH.
  reflexivity.
Qed.

Lemma encode_basestring_app (s rest : str) :
  encode_basestring s ++ rest = 34 :: flat_map escape_char s ++ 34 :: rest.
Proof.
  unfold encode_basestring. cbn [app]. now rewrite <- app_assoc.
Qed.

Lemma scan_once_string (depth : nat) (s rest : str) :
  scan_once depth (encode_basestring s ++ rest) = Ok (JStr s, rest).
Proof.
  rewrite encode_basestring_app.
  destruct depth; cbn [scan_once N.eqb Pos.eqb];
    rewrite scanstring_escaped; reflexivity.
Qed.

Lemma encode_basestring_head (s rest : str) :
  exists body, encode_basestring s ++ rest = 34 :: body.
Proof. unfold encode_basestring. cbn [app]. eauto. Qed.

Lemma array_items_dumped (depth : nat) (ts : list str) :
  forall (t : str) (gas : nat) (tail : str),
    (length ts < gas)%nat ->
    array_items (scan_once depth) gas
      (encode_basestring t
       ++ flat_map (fun x => item_sep ++ encode_basestring x) ts
       ++ [10; 93] ++ tail)
    = Ok (map JStr (t :: ts), tail).
Proof.
  induction ts as [|t' ts IH]; intros t gas tail Hgas;
    (destruct gas as [|g]; [simpl in Hgas; lia|]);
    cbn [array_items]; rewrite scan_once_string.
  - reflexivity.
  - cbn [flat_map]. unfold item_sep at 1.
    rewrite <- !app_assoc. cbn [app skip_ws is_json_ws N.eqb Pos.eqb orb].
    destruct (encode_basestring_head t'
                (flat_map (fun x => item_sep ++ encode_basestring x) ts
                 ++ 10 :: 93 :: tail)) as [body Hb].
    assert (Hskip : forall z, skip_ws (34 :: z) = 34 :: z) by reflexivity.
    rewrite Hb, Hskip, <- Hb.
    specialize (IH t' g tail ltac:(simpl in Hgas; lia)).
    cbn [app] in IH. rewrite IH. reflexivity.
Qed.

Lemma length_items (ts : list str) :
  (length ts <= length (flat_map (fun x => item_sep ++ encode_basestring x) ts))%nat.
Proof.
  induction ts as [|t ts IH]; cbn [flat_map length]; [lia|].
  rewrite !length_app. unfold item_sep at 1. cbn [length]. lia.
Qed.

Lemma scan_once_dumps (d : nat) (tokens : list str) :
  scan_once (S d) (json_dumps tokens) = Ok (of_tokens tokens, []).
Proof.
  destruct tokens as [|t ts]; [reflexivity|].
  unfold json_dumps.
  cbn [app scan_once N.eqb Pos.eqb skip_ws is_json_ws orb].
  destruct (encode_basestring_head t
              (flat_map (fun x => item_sep ++ encode_basestring x) ts
               ++ [10; 93])) as [body Hb].
  assert (Hskip : forall z, skip_ws (34 :: z) = 34 :: z) by reflexivity.
  rewrite Hb, Hskip. cbn [N.eqb Pos.eqb]. rewrite <- Hb. clear Hb Hskip.
  match goal with
  | |- context [array_items _ ?n _] => remember n as gas eqn:Hgas
  end.
  rewrite <- (app_nil_r [10; 93]).
  rewrite array_items_dumped; [reflexivity|].
  subst gas. cbn [length]. rewrite !length_app.
  pose proof (length_items ts). lia.
Qed.

(** Whatever list of strings [json.dumps] wrote, [json.loads] reads it
    back. *)
Lemma loads_dumps (tokens : list str) :
  json_loads (json_dumps tokens) = Ok (of_tokens tokens).
Proof.
  unfold json_loads.
  assert (Hbom : starts_with [65279] (json_dumps tokens) = false)
    by (destruct tokens; reflexivity).
  assert (Hws : skip_ws (json_dumps tokens) = json_dumps tokens)
    by (destruct tokens; reflexivity).
  rewrite Hbom, Hws.
  change recursion_limit with (S 999).
  rewrite scan_once_dumps. reflexivity.
Qed.

Lemma all_strings_map (tokens : list str) : all_strings (map JStr tokens) = Some tokens.
Proof.
  induction tokens as [|t ts IH]; simpl; [reflexivity|]. now rewrite IH.
Qed.

Lemma as_tokens_of_tokens (tokens : list str) : as_tokens (of_tokens tokens) = Some tokens.
Proof. apply all_strings_map. Qed.

(** What [json.dumps] writes holds no carriage return, so reading it in
    text mode changes nothing. *)
Lemma universal_newlines_id (s : str) :
  forallb (fun c => negb (c =? 13)) s = true -> universal_newlines s = s.
Proof.
  induction s as [|c r IH]; simpl; [reflexivity|].
  intros H. apply andb_true_iff in H as [Hc Hr].
  destruct (c =? 13); [discriminate|]. now rewrite IH.
Qed.

Lemma hexdigit_not_cr (d : N) : (hexdigit d =? 13) = false.
Proof.
  unfold hexdigit. destruct (d <? 10); apply N.eqb_neq; lia.
Qed.

Lemma escape_char_no_cr (c : char) :
  forallb (fun c => negb (c =? 13)) (escape_char c) = true.
Proof.
  unfold escape_char.
  destruct (c =? 34); [reflexivity|].
  destruct (c =? 92); [reflexivity|].
  destruct (c =? 10); [reflexivity|].
  destruct (c =? 13) eqn:Hcr; [reflexivity|].
  destruct (c =? 9); [reflexivity|].
  destruct (c =? 8); [reflexivity|].
  destruct (c =? 12); [reflexivity|].
  destruct (c <? 32).
  - cbn [forallb]. rewrite !hexdigit_not_cr. reflexivity.
  - cbn [forallb]. rewrite Hcr. reflexivity.
Qed.

Lemma encode_basestring_no_cr (s : str) :
  forallb (fun c => negb (c =? 13)) (encode_basestring s) = true.
Proof.
  unfold encode_basestring. rewrite !forallb_app. cbn [forallb N.eqb Pos.eqb negb andb].
  rewrite andb_true_r.
  induction s as [|c s IH]; [reflexivity|].
  cbn [flat_map]. now rewrite forallb_app, escape_char_no_cr, IH.
Qed.

Lemma json_dumps_no_cr (tokens : list str) :
  forallb (fun c => negb (c =? 13)) (json_dumps tokens) = true.
Proof.
  destruct tokens as [|t ts]; [reflexivity|].
  unfold json_dumps. rewrite !forallb_app, encode_basestring_no_cr.
  cbn [forallb N.eqb Pos.eqb negb andb]. rewrite andb_true_r.
  induction ts as [|x ts IH]; [reflexivity|].
  cbn [flat_map]. rewrite !forallb_app, encode_basestring_no_cr, IH. reflexivity.
Qed.

Lemma read_back_dumps (tokens : list str) :
  json_loads (universal_newlines (json_dumps tokens)) = Ok (of_tokens tokens).
Proof.
  rewrite universal_newlines_id by apply json_dumps_no_cr. apply loads_dumps.
Qed.

(** ** The decoder never runs out of gas *)

Lemma skip_ws_length (s : str) : (length (skip_ws s) <= length s)%nat.
Proof.
  induction s as [|c r IH]; cbn; [lia|]. destruct (is_json_ws c); cbn; lia.
Qed.

Lemma strip_prefix_length (p : str) :
  forall s r, strip_prefix p s = Some r -> (length r + length p = length s)%nat.
Proof.
  induction p as [|a p IH]; intros [|b s] r H; cbn in *;
    try discriminate; try (inversion H; subst; cbn; lia).
  destruct (a =? b); [|discriminate]. apply IH in H. lia.
Qed.

Lemma cons_char_inv (c : char) (k : res (str * str)) (t r : str) :
  cons_char c k = Ok (t, r) -> exists t', k = Ok (t', r).
Proof.
  destruct k as [[t' r']|e]; cbn; intros H; inversion H; subst; eauto.
Qed.

Ltac split_cases H :=
  repeat match type of H with
         | context [match ?x with _ => _ end] =>
             match type of x with
             | res _ => fail 1
             | _ => destruct x eqn:?
             end
         end.

(** A string that is read uses up at least its closing quote. *)
Lemma scanstring_consumes (n : nat) :
  forall s t r,
    (length s <= n)%nat -> scanstring s = Ok (t, r) ->
    (length r < length s)%nat.
Proof.
  induction n as [|n IH]; intros s t r Hlen H.
  - destruct s; [discriminate | cbn in Hlen; lia].
  - destruct s as [|c s]; [discriminate|].
    cbn [scanstring] in H. cbn [length] in *.
    split_cases H; try discriminate;
      try (inversion H; subst; lia);
      apply cons_char_inv in H as [t' H]; apply IH in H; cbn [length] in *; lia.
Qed.

Lemma span_digits_length (s : str) :
  (length (snd (span_digits s)) <= length s)%nat.
Proof.
  induction s as [|c r IH]; cbn; [lia|].
  destruct (is_digit c); [|cbn; lia].
  destruct (span_digits r); cbn in *. lia.
Qed.

Lemma match_number_consumes (s lexeme r : str) :
  match_number s = Some (lexeme, r) -> (length r < length s)%nat.
Proof.
  unfold match_number.
  destruct (int_part s) as [[i r0]|] eqn:Hint; [|discriminate].
  assert (H0 : (length r0 < length s)%nat).
  { unfold int_part in Hint.
    destruct s as [|c s]; [discriminate|].
    destruct (c =? 45).
    - destruct s as [|d s]; [discriminate|].
      destruct (d =? 48); [inversion Hint; subst; cbn; lia|].
      destruct (is_digit d); [|discriminate].
      pose proof (span_digits_length s).
      destruct (span_digits s); inversion Hint; subst; cbn in *; lia.
    - destruct (c =? 48); [inversion Hint; subst; cbn; lia|].
      destruct (is_digit c); [|discriminate].
      pose proof (span_digits_length s).
      destruct (span_digits s); inversion Hint; subst; cbn in *; lia. }
  assert (H1 : (length (snd (frac_part r0)) <= length r0)%nat).
  { unfold frac_part. destruct r0 as [|c r1]; [cbn; lia|].
    destruct (c =? 46); [|cbn; lia].
    pose proof (span_digits_length r1).
    destruct (span_digits r1) as [[|d ds] rest]; cbn in *; lia. }
  destruct (frac_part r0) as [f r1]. cbn [snd] in H1.
  assert (H2 : (length (snd (exp_part r1)) <= length r1)%nat).
  { unfold exp_part. destruct r1 as [|c r2]; [cbn; lia|].
    destruct ((c =? 101) || (c =? 69)); [|cbn; lia].
    destruct r2 as [|d r3].
    - cbn. lia.
    - destruct ((d =? 45) || (d =? 43)).
      + pose proof (span_digits_length r3).
        destruct (span_digits r3) as [[|x ds] rest]; cbn in *; lia.
      + pose proof (span_digits_length (d :: r3)).
        destruct (span_digits (d :: r3)) as [[|x ds] rest]; cbn in *; lia. }
  destruct (exp_part r1) as [e r2]. cbn [snd] in H2.
  intros H. inversion H; subst. lia.
Qed.


Lemma array_items_consumes (scan : str -> res (json * str)) :
  consumes scan ->
  forall gas s vs r,
    array_items scan gas s = Ok (vs, r) -> (length r < length s)%nat.
Proof.
  intros Hscan. induction gas as [|g IH]; intros s vs r H; cbn in H;
    [discriminate|].
  destruct (scan s) as [[v r0]|] eqn:Hs; [|discriminate]. apply Hscan in Hs.
  pose proof (skip_ws_length r0) as Hws.
  destruct (skip_ws r0) as [|c r1]; [discriminate|].
  destruct (c =? 93); [inversion H; subst; cbn in *; lia|].
  destruct (c =? 44); [|discriminate].
  destruct (array_items scan g (skip_ws r1)) as [[vs' r']|] eqn:Hrec;
    cbn in H; [|discriminate].
  inversion H; subst. apply IH in Hrec.
  pose proof (skip_ws_length r1). cbn in *. lia.
Qed.

Lemma object_members_consumes (scan : str -> res (json * str)) :
  consumes scan ->
  forall gas s ms r,
    object_members scan gas s = Ok (ms, r) -> (length r < length s)%nat.
Proof.
  intros Hscan. induction gas as [|g IH]; intros s ms r H; cbn in H;
    [discriminate|].
  destruct s as [|q s1]; [discriminate|].
  destruct (q =? 34); [|discriminate].
  destruct (scanstring s1) as [[key r0]|] eqn:Hkey; [|discriminate].
  apply (scanstring_consumes (length s1)) in Hkey; [|lia].
  pose proof (skip_ws_length r0) as Hws0.
  destruct (skip_ws r0) as [|c r1]; [discriminate|].
  destruct (c =? 58); [|discriminate].
  destruct (scan (skip_ws r1)) as [[v r2]|] eqn:Hv; [|discriminate].
  apply Hscan in Hv. pose proof (skip_ws_length r1) as Hws1.
  pose proof (skip_ws_length r2) as Hws2.
  destruct (skip_ws r2) as [|d r3]; [discriminate|].
  destruct (d =? 125); [inversion H; subst; cbn in *; lia|].
  destruct (d =? 44); [|discriminate].
  destruct (object_members scan g (skip_ws r3)) as [[ms' r']|] eqn:Hrec;
    cbn in H; [|discriminate].
  inversion H; subst. apply IH in Hrec.
  pose proof (skip_ws_length r3). cbn in *. lia.
Qed.

Lemma scan_once_consumes (depth : nat) : consumes (scan_once depth).
Proof.
  induction depth as [|d IH]; intros s v r H;
    (destruct s as [|c s0]; [discriminate|]);
    cbn [scan_once] in H;
    (destruct (c =? 34);
     [destruct (scanstring s0) as [[t r0]|] eqn:Hs; [|discriminate];
      apply (scanstring_consumes (length s0)) in Hs; [|lia];
      cbn in H; inversion H; subst; cbn; lia|]).
  1: destruct (c =? 123); [discriminate|];
     destruct (c =? 91); [discriminate|].
  2: destruct (c =? 123);
     [pose proof (skip_ws_length s0) as Hws;
      destruct (skip_ws s0) as [|c' r'] eqn:Hskip; [discriminate|];
      destruct (c' =? 125); [inversion H; subst; cbn in *; lia|];
      destruct (object_members (scan_once d) (length s0) (c' :: r'))
        as [[ms r0]|] eqn:Hm; [|discriminate];
      apply (object_members_consumes _ IH) in Hm;
      cbn in H; inversion H; subst; cbn in *; lia|];
     destruct (c =? 91);
     [pose proof (skip_ws_length s0) as Hws;
      destruct (skip_ws s0) as [|c' r'] eqn:Hskip; [discriminate|];
      destruct (c' =? 93); [inversion H; subst; cbn in *; lia|];
      destruct (array_items (scan_once d) (length s0) (c' :: r'))
        as [[vs r0]|] eqn:Hm; [|discriminate];
      apply (array_items_consumes _ IH) in Hm;
      cbn in H; inversion H; subst; cbn in *; lia|].
  all: repeat match type of H with
         | context [strip_prefix ?p ?x] =>
             let Hp := fresh "Hp" in
             destruct (strip_prefix p x) eqn:Hp;
             [apply strip_prefix_length in Hp; simpl in Hp; inversion H; subst;
              cbn [length] in *; lia|]
         | context [match_number ?x] =>
             let Hn := fresh "Hn" in
             destruct (match_number x) as [[lex rest]|] eqn:Hn;
             [apply match_number_consumes in Hn; inversion H; subst;
              cbn [length] in *; lia|]
         end; discriminate.
Qed.

(** With the length of the text as gas, more gas changes nothing: the
    items run out before the gas does. *)
Lemma array_items_gas (scan : str -> res (json * str)) :
  consumes scan ->
  forall g1 g2 s,
    (length s <= g1 /\ 0 < g1)%nat -> (length s <= g2 /\ 0 < g2)%nat ->
    array_items scan g1 s = array_items scan g2 s.
Proof.
  intros Hscan. induction g1 as [|g1 IH]; intros g2 s H1 H2; [lia|].
  destruct g2 as [|g2]; [lia|]. cbn [array_items].
  destruct (scan s) as [[v r0]|] eqn:Hs; [|reflexivity]. apply Hscan in Hs.
  pose proof (skip_ws_length r0) as Hws.
  destruct (skip_ws r0) as [|c r1]; [reflexivity|].
  destruct (c =? 93); [reflexivity|].
  destruct (c =? 44); [|reflexivity].
  pose proof (skip_ws_length r1). cbn [length] in *.
  rewrite (IH g2 (skip_ws r1)); [reflexivity | lia | lia].
Qed.

Lemma object_members_gas (scan : str -> res (json * str)) :
  consumes scan ->
  forall g1 g2 s,
    (length s <= g1 /\ 0 < g1)%nat -> (length s <= g2 /\ 0 < g2)%nat ->
    object_members scan g1 s = object_members scan g2 s.
Proof.
  intros Hscan. induction g1 as [|g1 IH]; intros g2 s H1 H2; [lia|].
  destruct g2 as [|g2]; [lia|]. cbn [object_members].
  destruct s as [|q s1]; [reflexivity|].
  destruct (q =? 34); [|reflexivity].
  destruct (scanstring s1) as [[key r0]|] eqn:Hkey; [|reflexivity].
  apply (scanstring_consumes (length s1)) in Hkey; [|lia].
  pose proof (skip_ws_length r0) as Hws0.
  destruct (skip_ws r0) as [|c r1]; [reflexivity|].
  destruct (c =? 58); [|reflexivity].
  destruct (scan (skip_ws r1)) as [[v r2]|] eqn:Hv; [|reflexivity].
  apply Hscan in Hv. pose proof (skip_ws_length r1) as Hws1.
  pose proof (skip_ws_length r2) as Hws2.
  destruct (skip_ws r2) as [|d r3]; [reflexivity|].
  destruct (d =? 125); [reflexivity|].
  destruct (d =? 44); [|reflexivity].
  pose proof (skip_ws_length r3). cbn [length] in *.
  rewrite (IH g2 (skip_ws r3)); [reflexivity | lia | lia].
Qed.

(** The gas [scan_once] hands out, the length of the text after the
    bracket, is enough. *)
Lemma gas_suffices (depth : nat) (r : str) (gas : nat) :
  (length r <= gas)%nat -> skip_ws r <> [] ->
  array_items (scan_once depth) gas (skip_ws r)
  = array_items (scan_once depth) (length r) (skip_ws r)
  /\ object_members (scan_once depth) gas (skip_ws r)
     = object_members (scan_once depth) (length r) (skip_ws r).
Proof.
  intros Hgas Hne. pose proof (skip_ws_length r) as Hws.
  assert (0 < length (skip_ws r))%nat
    by (destruct (skip_ws r); [congruence | cbn; lia]).
  split; [apply array_items_gas | apply object_members_gas];
    try apply scan_once_consumes; lia.
Qed.

(** ** The token store *)

Lemma load_tokens_cases (w : world) :
  load_tokens w =
  (match tokens_file w with
   | Holds text =>
       Ok match json_loads (universal_newlines text) with
          | Ok v => v
          | Raise _ => JArr []
          end
   | Inaccessible e => Raise e
   | _ => Ok (JArr [])
   end, w).
Proof.
  unfold load_tokens, bind, path_exists, try_except, read_text, lift, ret.
  cbn [get_file].
  destruct (tokens_file w) as [|e|e|text] eqn:Hfile; cbv beta iota;
    rewrite ?Hfile; [reflexivity|reflexivity|reflexivity|].
  destruct (json_loads (universal_newlines text)); reflexivity.
Qed.

(** Where [exists()] answers, [load_tokens] returns and leaves the world as
    it was: the empty list when [tokens.json] is absent, cannot be read or
    does not parse, and the list [save_tokens] wrote when it wrote the
    file. *)
Lemma load_tokens_recovers (w : world) :
  (forall e, tokens_file w <> Inaccessible e) ->
  exists v,
    load_tokens w = (Ok v, w)
    /\ (tokens_file w = Absent -> v = JArr [])
    /\ (forall e, tokens_file w = Unreadable e -> v = JArr [])
    /\ (forall text e, tokens_file w = Holds text ->
          json_loads (universal_newlines text) = Raise e -> v = JArr [])
    /\ (forall tokens, tokens_file w = Holds (json_dumps tokens) ->
          v = of_tokens tokens).
Proof.
  intros Hstat. rewrite load_tokens_cases.
  destruct (tokens_file w) as [|e|e|text] eqn:Hfile;
    [| |now destruct (Hstat e)|]; eexists; (split; [reflexivity|]);
    repeat split; try discriminate; try reflexivity.
  - intros text' e H1 H2. inversion H1; subst. now rewrite H2.
  - intros tokens H. inversion H; subst. now rewrite read_back_dumps.
Qed.

Lemma save_tokens_ok (tokens : list str) (w w' : world) :
  save_tokens tokens w = (Ok tt, w') ->
  tokens_file w' = Holds (json_dumps tokens) /\ log_file w' = log_file w.
Proof.
  unfold save_tokens, write_text.
  destruct (write_faults w) as [|[e|] fs]; intros H; inversion H; subst;
    split; reflexivity.
Qed.

(** C5, on the code: [TOKENS_FILE.exists()] (line 35) stands before the
    [try], so when it raises, as it does with a [PermissionError] for a
    [tokens.json] whose directory may not be searched, [load_tokens] raises
    that exception to its caller instead of returning the empty list. *)
Theorem load_tokens_raises_when_exists_raises (e : exn) (w : world) :
  load_tokens (set_file TOKENS_FILE (Inaccessible e) w)
  = (Raise e, set_file TOKENS_FILE (Inaccessible e) w).
Proof. rewrite load_tokens_cases. reflexivity. Qed.

(** C4, as stated, fails: a valid token file written on one line is read as
    the list of the string a, and saving that list writes the indented form,
    which differs from what the file held. *)
Lemma save_load_reformats :
  load_tokens w_compact = (Ok (of_tokens [u "a"]), w_compact)
  /\ exists w',
       save_tokens [u "a"] w_compact = (Ok tt, w')
       /\ tokens_file w_compact = Holds [91; 34; 97; 34; 93]
       /\ tokens_file w' = Holds [91; 10; 32; 32; 34; 97; 34; 10; 93]
       /\ tokens_file w' <> tokens_file w_compact.
Proof.
  split; [reflexivity|].
  eexists. repeat split; try reflexivity. discriminate.
Qed.

(** C4, amended: once [save_tokens] has written a list, [load_tokens] returns
    that list, and saving what was loaded writes the very content the file
    holds. *)
Theorem save_load_roundtrip (tokens : list str) (w0 w : world) :
  save_tokens tokens w0 = (Ok tt, w) ->
  load_tokens w = (Ok (of_tokens tokens), w)
  /\ stored_tokens w = Some tokens
  /\ (forall w', save_tokens tokens w = (Ok tt, w') -> tokens_file w' = tokens_file w)
  /\ (hd None (write_faults w) = None ->
      exists w', save_tokens tokens w = (Ok tt, w')).
Proof.
  intros Hsave. apply save_tokens_ok in Hsave as [Hfile _].
  assert (Hload : load_tokens w = (Ok (of_tokens tokens), w)).
  { rewrite load_tokens_cases, Hfile, read_back_dumps. reflexivity. }
  repeat split.
  - exact Hload.
  - unfold stored_tokens. rewrite Hload. apply as_tokens_of_tokens.
  - intros w' H. apply save_tokens_ok in H as [H _]. congruence.
  - intros Hhd. unfold save_tokens, write_text.
    destruct (write_faults w) as [|[e|] fs]; try discriminate; eauto.
Qed.

Lemma save_load_roundtrip_witness :
  save_tokens [u "abc123"; u "xyz789"] w_empty
  = (Ok tt, World (Holds (json_dumps [u "abc123"; u "xyz789"])) Absent [] 0 0 0)
  /\ load_tokens (World (Holds (json_dumps [u "abc123"; u "xyz789"])) Absent [] 0 0 0)
     = (Ok (of_tokens [u "abc123"; u "xyz789"]),
        World (Holds (json_dumps [u "abc123"; u "xyz789"])) Absent [] 0 0 0).
Proof.
  split; [reflexivity|].
  apply (save_load_roundtrip [u "abc123"; u "xyz789"] w_empty). reflexivity.
Defined.

(** ** The log sink and the vote client *)

Lemma sink_ok_inv (w : world) :
  sink_ok w = true ->
  (log_file w = Absent \/ exists old, log_file w = Holds old)
  /\ (write_faults w = [] \/ exists fs, write_faults w = None :: fs).
Proof.
  unfold sink_ok. intros H. apply andb_true_iff in H as [Hlog Hfaults]. split.
  - destruct (log_file w); try discriminate; eauto.
  - destruct (write_faults w) as [|[e|] fs]; [now left|discriminate|right; eauto].
Qed.

Lemma append_log_ok (E : env) (text : str) (w : world) :
  sink_ok w = true -> append_log E text w = (Ok tt, logged E text w).
Proof.
  intros H. destruct (sink_ok_inv w H) as [Hlog Hfaults].
  unfold append_log, logged, log_read, bind, now, path_exists, read_text, write_text.
  cbn [get_file log_file write_faults tokens_file clock_reads uuid_draws posts
       set_file set_faults].
  destruct Hlog as [-> | [old ->]];
    destruct Hfaults as [-> | [fs ->]]; reflexivity.
Qed.

Lemma sink_ok_logged (E : env) (text : str) (w : world) :
  sink_ok w = true -> sink_ok (logged E text w) = true.
Proof.
  intros H. destruct (sink_ok_inv w H) as [_ Hfaults].
  unfold sink_ok, logged. cbn [log_file write_faults].
  destruct Hfaults as [-> | [fs Hfs]]; [reflexivity|].
  unfold sink_ok in H. rewrite Hfs in *. cbn [tl].
  apply andb_true_iff in H as [_ H]. exact H.
Qed.

Lemma sink_ok_after_post (w : world) : sink_ok (after_post w) = sink_ok w.
Proof. reflexivity. Qed.

(** With a working sink the vote client returns what the outcome of the
    request amounts to and logs one line. *)
Lemma run_request_ok (E : env) (token : str) (w : world) :
  sink_ok w = true ->
  run_request_for_token E token w
  = (Ok (answer_of (outcome_at E w 0 token)),
     logged E (line_of token (outcome_at E w 0 token)) (after_post w)).
Proof.
  intros H.
  unfold run_request_for_token, build_headers, try_except, bind, uuid4,
    requests_post, ret, outcome_at.
  cbn [tokens_file log_file write_faults clock_reads uuid_draws posts].
  rewrite !Nat.add_0_r.
  change (World (tokens_file w) (log_file w) (write_faults w) (clock_reads w)
                (S (uuid_draws w)) (S (posts w))) with (after_post w).
  destruct (remote E (posts w) API_URL payload
                   (headers_of (uuid4_str E (uuid_draws w)) token))
    as [status_code text parsed|e]; cbn [answer_of line_of].
  - rewrite append_log_ok by exact H.
    unfold lift. destruct parsed; reflexivity.
  - rewrite append_log_ok by exact H. reflexivity.
Qed.

Lemma result_of_answer (token : str) (o : http_outcome) :
  result_of token o
  = let '(ok, status, body) := answer_of o in
    mkRunResult (slice_to 8 token ++ u "...") ok status body.
Proof. destruct o; reflexivity. Qed.

(** ** The batch runner *)

Lemma results_from_shift (E : env) (w w' : world) (tokens : list str) :
  posts w' = S (posts w) -> uuid_draws w' = S (uuid_draws w) ->
  forall j, results_from E w' j tokens = results_from E w (S j) tokens.
Proof.
  intros Hp Hu. induction tokens as [|t ts IH]; intros j; [reflexivity|].
  cbn [results_from]. rewrite IH. unfold outcome_at. rewrite Hp, Hu.
  rewrite !Nat.add_succ_r. reflexivity.
Qed.

Lemma results_from_same (E : env) (w w' : world) (tokens : list str) :
  posts w' = posts w -> uuid_draws w' = uuid_draws w ->
  forall j, results_from E w' j tokens = results_from E w j tokens.
Proof.
  intros Hp Hu. induction tokens as [|t ts IH]; intros j; [reflexivity|].
  cbn [results_from]. rewrite IH. unfold outcome_at. rewrite Hp, Hu.
  reflexivity.
Qed.

Lemma for_tokens_ok (E : env) (tokens : list str) :
  forall (results : list RunResult) (w : world),
    sink_ok w = true ->
    exists w',
      for_tokens E tokens results w
      = (Ok (results ++ results_from E w 0 tokens), w')
      /\ sink_ok w' = true.
Proof.
  induction tokens as [|t ts IH]; intros results w H.
  - exists w. cbn. now rewrite app_nil_r.
  - cbn [for_tokens]. unfold bind at 1. rewrite run_request_ok by exact H.
    set (w1 := logged E (line_of t (outcome_at E w 0 t)) (after_post w)).
    assert (H1 : sink_ok w1 = true) by (apply sink_ok_logged; exact H).
    pose proof (result_of_answer t (outcome_at E w 0 t)) as Hres.
    destruct (answer_of (outcome_at E w 0 t)) as [[ok status] body].
    destruct (IH (results ++ [mkRunResult (slice_to 8 t ++ u "...") ok status body])
                 w1 H1) as [w' [Hrun Hok]].
    exists w'. split; [|exact Hok].
    rewrite Hrun. rewrite <- app_assoc. cbn [app results_from].
    rewrite Hres.
    rewrite (results_from_shift E w w1 ts eq_refl eq_refl). reflexivity.
Qed.

(** Whenever the loop returns, it has appended one result per token, in the
    order of the tokens; no assumption on the sink or the remote end. *)
Lemma for_tokens_prefixes (E : env) (tokens : list str) :
  forall (results out : list RunResult) (w w' : world),
    for_tokens E tokens results w = (Ok out, w') ->
    map token_prefix out
    = map token_prefix results ++ map (fun t => slice_to 8 t ++ u "...") tokens.
Proof.
  induction tokens as [|t ts IH]; intros results out w w' Hrun.
  - cbn in Hrun. inversion Hrun; subst. cbn. now rewrite app_nil_r.
  - cbn [for_tokens] in Hrun. unfold bind at 1 in Hrun.
    destruct (run_request_for_token E t w) as [[[[ok status] body]|e] w1];
      [|discriminate].
    apply IH in Hrun. rewrite Hrun, map_app, <- app_assoc. reflexivity.
Qed.

Lemma length_results_from (E : env) (w : world) (tokens : list str) :
  forall j, length (results_from E w j tokens) = length tokens.
Proof.
  induction tokens as [|t ts IH]; intros j; cbn; [reflexivity|]. now rewrite IH.
Qed.

Lemma nth_error_results_from (E : env) (w : world) (tokens : list str) :
  forall i j t,
    nth_error tokens j = Some t ->
    nth_error (results_from E w i tokens) j
    = Some (result_of t (outcome_at E w (i + j) t)).
Proof.
  induction tokens as [|t' ts IH]; intros i j t Hj.
  - destruct j; discriminate.
  - destruct j as [|j]; cbn in *.
    + inversion Hj; subst. now rewrite Nat.add_0_r.
    + rewrite (IH (S i) j t Hj). now rewrite Nat.add_succ_r.
Qed.

Lemma run_all_tokens_unfold (E : env) (w : world) (tokens : list str) :
  stored_tokens w = Some tokens ->
  run_all_tokens E w = Some (run_batch E tokens w).
Proof.
  unfold stored_tokens, run_all_tokens. rewrite load_tokens_cases.
  destruct (match tokens_file w with Holds _ => _ | _ => _ end) as [v|e];
    [|discriminate].
  intros ->. reflexivity.
Qed.

(** A run of [run_all_tokens] either stops at line 90, where [load_tokens]
    raised, or is the batch for the stored list. *)
Lemma run_all_tokens_cases (E : env) (w w' : world) (r : res (list RunResult)) :
  run_all_tokens E w = Some (r, w') ->
  (exists e, tokens_file w = Inaccessible e /\ r = Raise e /\ w' = w)
  \/ (exists tokens,
        stored_tokens w = Some tokens /\ run_batch E tokens w = (r, w')).
Proof.
  unfold run_all_tokens, stored_tokens. rewrite load_tokens_cases.
  destruct (tokens_file w) as [|e|e|text].
  - destruct (as_tokens _) as [tokens|]; [|discriminate].
    intros H. inversion H. right. eauto.
  - destruct (as_tokens _) as [tokens|]; [|discriminate].
    intros H. inversion H. right. eauto.
  - intros H. inversion H; subst. left. eauto.
  - destruct (as_tokens _) as [tokens|]; [|discriminate].
    intros H. inversion H. right. eauto.
Qed.

Lemma run_batch_ok (E : env) (tokens : list str) (w : world) :
  sink_ok w = true ->
  exists w', run_batch E tokens w = (Ok (results_from E w 0 tokens), w').
Proof.
  intros H. unfold run_batch. unfold bind at 1.
  rewrite append_log_ok by exact H.
  set (w1 := logged E _ w).
  assert (H1 : sink_ok w1 = true) by (apply sink_ok_logged; exact H).
  destruct (for_tokens_ok E tokens [] w1 H1) as [w2 [Hrun H2]].
  unfold bind at 1. rewrite Hrun. unfold bind.
  rewrite append_log_ok by exact H2. cbn [app ret].
  rewrite (results_from_same E w w1 tokens eq_refl eq_refl).
  eexists. reflexivity.
Qed.

Lemma run_batch_prefixes (E : env) (tokens : list str) (w w' : world)
      (results : list RunResult) :
  run_batch E tokens w = (Ok results, w') ->
  map token_prefix results = map (fun t => slice_to 8 t ++ u "...") tokens.
Proof.
  unfold run_batch. unfold bind at 1.
  destruct (append_log E _ w) as [[[]|e] w1]; [|discriminate].
  unfold bind at 1.
  destruct (for_tokens E tokens [] w1) as [[out|e] w2] eqn:Hloop; [|discriminate].
  unfold bind. destruct (append_log E _ w2) as [[[]|e] w3]; [|discriminate].
  unfold ret. intros Hret. inversion Hret; subst.
  apply for_tokens_prefixes in Hloop. exact Hloop.
Qed.

(** C2: for the stored list of tokens, whenever [run_all_tokens] returns it
    returns exactly one result per token, in the order of the list, whatever
    the requests did; and with a working log sink it does return, the [j]-th
    result being what the [j]-th request amounted to. *)
Theorem run_all_one_result_per_token (E : env) (w : world) (tokens : list str) :
  stored_tokens w = Some tokens ->
  (forall results w',
      run_all_tokens E w = Some (Ok results, w') ->
      length results = length tokens
      /\ map token_prefix results = map (fun t => slice_to 8 t ++ u "...") tokens)
  /\ (sink_ok w = true ->
      exists w',
        run_all_tokens E w = Some (Ok (results_from E w 0 tokens), w')
        /\ length (results_from E w 0 tokens) = length tokens
        /\ forall j t,
             nth_error tokens j = Some t ->
             nth_error (results_from E w 0 tokens) j
             = Some (result_of t (outcome_at E w j t))).
Proof.
  intros Hstore. rewrite (run_all_tokens_unfold E w tokens Hstore). split.
  - intros results w' Hrun. inversion Hrun as [Hbatch].
    apply run_batch_prefixes in Hbatch. split; [|exact Hbatch].
    rewrite <- (length_map token_prefix), Hbatch. apply length_map.
  - intros Hsink. destruct (run_batch_ok E tokens w Hsink) as [w' Hrun].
    exists w'. rewrite Hrun. repeat split.
    + apply length_results_from.
    + intros j t Hj. apply (nth_error_results_from E w tokens 0 j t Hj).
Qed.

Lemma run_all_one_result_per_token_witness :
  stored_tokens w_three
  = Some [u "token-one-aaaa"; u "token-two-bbbb"; u "token-three-cc"]
  /\ exists w',
       run_all_tokens E0 w_three
       = Some (Ok (results_from E0 w_three 0
                     [u "token-one-aaaa"; u "token-two-bbbb"; u "token-three-cc"]),
               w').
Proof.
  split; [reflexivity|].
  destruct (run_all_one_result_per_token E0 w_three
              [u "token-one-aaaa"; u "token-two-bbbb"; u "token-three-cc"])
    as [_ H]; [reflexivity|].
  destruct H as [w' [Hrun _]]; [reflexivity|].
  exists w'. exact Hrun.
Defined.

(** C1, as stated, fails: the request for the second of three stored tokens
    raises, the line for that exception cannot be appended to the log, and
    the exception of [append_log] (line 84, inside the handler) leaves
    [run_all_tokens]: there is no result for any token, and the third token
    is never sent. *)
Lemma log_failure_after_failed_request_stops_batch :
  stored_tokens w_three_faulty
  = Some [u "token-one-aaaa"; u "token-two-bbbb"; u "token-three-cc"]
  /\ outcome_at E0 w_three_faulty 1 (u "token-two-bbbb")
     = Fails (Exn "ConnectionError" (u "connection refused"))
  /\ (exists w',
        run_all_tokens E0 w_three_faulty = Some (Raise disk_full, w')
        /\ posts w' = 2%nat)
  /\ (forall results w',
        run_all_tokens E0 w_three_faulty <> Some (Ok results, w')).
Proof.
  split; [reflexivity|]. split; [reflexivity|].
  destruct (run_all_tokens E0 w_three_faulty) as [[[results|e] w']|] eqn:Hrun;
    [cbv in Hrun; discriminate| |cbv in Hrun; discriminate].
  assert (He : e = disk_full /\ posts w' = 2%nat)
    by (cbv in Hrun; inversion Hrun; split; reflexivity).
  destruct He as [-> Hposts]. split; [exists w'; split; [reflexivity|exact Hposts]|].
  intros results w'' H. discriminate.
Qed.

(** C1, amended: with a working log sink, when the request for the [k]-th
    token raises, the result for that token has [ok = False], no status and
    the text of the exception, and the batch goes on: there is a result for
    every other token, each being what its own request amounted to. *)
Theorem failed_request_does_not_stop_batch
        (E : env) (w : world) (tokens : list str) (k : nat) (t : str) (e : exn) :
  stored_tokens w = Some tokens ->
  sink_ok w = true ->
  nth_error tokens k = Some t ->
  outcome_at E w k t = Fails e ->
  exists results w',
    run_all_tokens E w = Some (Ok results, w')
    /\ length results = length tokens
    /\ nth_error results k
       = Some (mkRunResult (slice_to 8 t ++ u "...") false None (Raw (str_of_exn e)))
    /\ forall j t',
         j <> k -> nth_error tokens j = Some t' ->
         nth_error results j = Some (result_of t' (outcome_at E w j t')).
Proof.
  intros Hstore Hsink Hk Hfail.
  destruct (run_batch_ok E tokens w Hsink) as [w' Hrun].
  exists (results_from E w 0 tokens), w'. repeat split.
  - rewrite (run_all_tokens_unfold E w tokens Hstore), Hrun. reflexivity.
  - apply length_results_from.
  - rewrite (nth_error_results_from E w tokens 0 k t Hk). cbn [Nat.add].
    rewrite Hfail. reflexivity.
  - intros j t' _ Hj. exact (nth_error_results_from E w tokens 0 j t' Hj).
Qed.

Lemma failed_request_does_not_stop_batch_witness :
  exists results w',
    run_all_tokens E0 w_three = Some (Ok results, w')
    /\ length results = 3%nat
    /\ nth_error results 1
       = Some (mkRunResult (u "token-tw...") false None (Raw (u "connection refused")))
    /\ nth_error results 0
       = Some (result_of (u "token-one-aaaa")
                         (outcome_at E0 w_three 0 (u "token-one-aaaa")))
    /\ nth_error results 2
       = Some (result_of (u "token-three-cc")
                         (outcome_at E0 w_three 2 (u "token-three-cc"))).
Proof.
  destruct (failed_request_does_not_stop_batch E0 w_three
              [u "token-one-aaaa"; u "token-two-bbbb"; u "token-three-cc"]
              1 (u "token-two-bbbb") (Exn "ConnectionError" (u "connection refused")))
    as [results [w' [Hrun [Hlen [Hk Hothers]]]]]; try reflexivity.
  exists results, w'. repeat split.
  - exact Hrun.
  - exact Hlen.
  - exact Hk.
  - apply Hothers; [discriminate | reflexivity].
  - apply Hothers; [discriminate | reflexivity].
Defined.

(** C10: when the request is answered but the log line for the answer
    cannot be appended, and the line for the exception can, the vote client
    returns [ok = False], no status and the text of the log's exception. *)
Theorem log_failure_turns_answer_into_failure
        (E : env) (token : str) (w w1 w2 : world)
        (status_code : nat) (text : str) (parsed : res json) (e : exn) :
  outcome_at E w 0 token = Responds status_code text parsed ->
  append_log E (response_line token status_code text) (after_post w) = (Raise e, w1) ->
  append_log E (exception_line token e) w1 = (Ok tt, w2) ->
  run_request_for_token E token w = (Ok (false, None, Raw (str_of_exn e)), w2).
Proof.
  unfold outcome_at. rewrite !Nat.add_0_r. intros Hpost Hlog Hlog'.
  unfold run_request_for_token, build_headers, try_except, bind, uuid4,
    requests_post, ret.
  cbn [tokens_file log_file write_faults clock_reads uuid_draws posts].
  change (World (tokens_file w) (log_file w) (write_faults w) (clock_reads w)
                (S (uuid_draws w)) (S (posts w))) with (after_post w).
  rewrite Hpost, Hlog, Hlog'. reflexivity.
Qed.

Lemma log_failure_turns_answer_into_failure_witness :
  outcome_at E0 w_faulty 0 (u "token-one-aaaa")
  = Responds 200 (u "{" ++ quote (u "ok") ++ u ":true}")
             (Ok (JObj [(u "ok", JBool true)]))
  /\ exists w2,
       run_request_for_token E0 (u "token-one-aaaa") w_faulty
       = (Ok (false, None, Raw (u "[Errno 28] No space left on device")), w2).
Proof.
  split; [reflexivity|].
  eexists.
  eapply (log_failure_turns_answer_into_failure
            E0 (u "token-one-aaaa") w_faulty _ _
            200 (u "{" ++ quote (u "ok") ++ u ":true}")
            (Ok (JObj [(u "ok", JBool true)])) disk_full);
    [reflexivity | cbv; reflexivity | cbv; reflexivity].
Defined.

(** ** What reaches the log *)

Lemma starts_with_refl (s : str) : starts_with s s = true.
Proof.
  induction s as [|c s IH]; [reflexivity|]. cbn. now rewrite N.eqb_refl.
Qed.

(** C6, as stated, fails: a token of at most eight characters is its own
    prefix, and the log line holds it in full. *)
Lemma short_token_logged_in_full :
  exists answer w',
    run_request_for_token E0 (u "abc123") w_empty = (Ok answer, w')
    /\ slice_to 8 (u "abc123") = u "abc123"
    /\ contains (u "abc123") (log_text w') = true.
Proof.
  eexists. eexists. split; [cbv; reflexivity|]. split; reflexivity.
Qed.

(** C6, amended: the line logged for a token is the time stamp, the first
    eight characters of the token followed by an ellipsis, and the status with
    the first 300 characters of the response (or the text of the exception);
    the token enters the line through its first eight characters only, so
    two tokens that share them and get the same answer leave the same log;
    for a token longer than eight characters those are a proper prefix. *)
Theorem log_line_carries_token_prefix (E : env) (token : str) (w : world) :
  sink_ok w = true ->
  exists answer w',
    run_request_for_token E token w = (Ok answer, w')
    /\ log_file w'
       = Holds (log_read w ++ isoformat_now E (clock_reads w) ++ u " - "
                ++ match outcome_at E w 0 token with
                   | Responds status_code text _ =>
                       u "token[:8]=" ++ slice_to 8 token ++ u "... status="
                       ++ str_of_nat status_code ++ u " body=" ++ slice_to 300 text
                   | Fails e =>
                       u "token[:8]=" ++ slice_to 8 token ++ u "... EXCEPTION: "
                       ++ str_of_exn e
                   end ++ [10])
    /\ (forall token' answer' w'',
          slice_to 8 token' = slice_to 8 token ->
          outcome_at E w 0 token' = outcome_at E w 0 token ->
          run_request_for_token E token' w = (Ok answer', w'') ->
          log_file w'' = log_file w')
    /\ ((8 < length token)%nat ->
        length (slice_to 8 token) = 8%nat /\ slice_to 8 token <> token).
Proof.
  intros Hsink. eexists. eexists.
  split; [apply run_request_ok; exact Hsink|].
  split; [|split].
  - unfold logged. cbn [log_file].
    destruct (outcome_at E w 0 token); reflexivity.
  - intros token' answer' w'' Hprefix Hsame Hrun.
    rewrite run_request_ok in Hrun by exact Hsink.
    inversion Hrun; subst. unfold logged. cbn [log_file].
    rewrite Hsame. do 4 f_equal.
    destruct (outcome_at E w 0 token); cbn [line_of];
      unfold response_line, exception_line; now rewrite Hprefix.
  - intros Hlong. unfold slice_to. split.
    + apply firstn_length_le. lia.
    + intros Heq. apply (f_equal (@length char)) in Heq.
      rewrite firstn_length_le in Heq by lia. lia.
Qed.

Lemma log_line_carries_token_prefix_witness :
  exists answer w',
    run_request_for_token E0 (u "token-one-aaaa") w_empty = (Ok answer, w')
    /\ log_file w'
       = Holds (u "2024-01-01T02:00:00 - token[:8]=token-on... status=200 body={"
                ++ quote (u "ok") ++ u ":true}" ++ [10]).
Proof.
  destruct (log_line_carries_token_prefix E0 (u "token-one-aaaa") w_empty)
    as [answer [w' [Hrun [Hlog _]]]]; [reflexivity|].
  exists answer, w'. split; [exact Hrun|]. rewrite Hlog. reflexivity.
Defined.

(** ** Adding tokens *)

(** C9: a submission that is empty or holds white space only is answered
    with the warning and changes nothing: the world (token file, log, writes
    attempted) and the list in memory are as before, and no token is
    added. *)
Theorem blank_submission_rejected
        (E : env) (tokens : list str) (token_input : str) (w : world) :
  forallb isspace token_input = true ->
  on_save_click E tokens token_input w
  = (Ok (tokens, [Warning msg_no_token_entered]), w)
  /\ add_tokens tokens (new_tokens token_input) = (tokens, 0%nat).
Proof.
  intros H. unfold on_save_click. rewrite (new_tokens_blank token_input H).
  split; reflexivity.
Qed.

Lemma blank_submission_rejected_witness :
  forallb isspace [32; 32; 32; 10; 32; 32] = true
  /\ on_save_click E0 [u "abc123"] [32; 32; 32; 10; 32; 32] w_three
     = (Ok ([u "abc123"], [Warning msg_no_token_entered]), w_three).
Proof.
  split; [reflexivity|].
  apply (blank_submission_rejected E0 [u "abc123"] [32; 32; 32; 10; 32; 32] w_three).
  reflexivity.
Defined.

Lemma existsb_str_eqb (t : str) (l : list str) :
  existsb (str_eqb t) l = true <-> In t l.
Proof.
  rewrite existsb_exists. split.
  - intros [x [Hin Heq]]. apply str_eqb_eq in Heq. now subst.
  - intros Hin. exists t. split; [exact Hin | apply str_eqb_refl].
Qed.

(** New lines that are all known already add nothing. *)
Lemma add_loop_known (new : list str) :
  forall tokens existing added,
    (forall x, In x new -> In x existing) ->
    add_loop new tokens existing added = (tokens, added).
Proof.
  induction new as [|t rest IH]; intros tokens existing added Hknown;
    [reflexivity|].
  cbn [add_loop].
  assert (Ht : existsb (str_eqb t) existing = true)
    by (apply existsb_str_eqb, Hknown; now left).
  rewrite Ht. apply IH. intros x Hx. apply Hknown. now right.
Qed.

(** After the loop every new line and every old token is in the list. *)
Lemma add_loop_holds (new : list str) :
  forall tokens existing added x,
    (forall y, In y existing -> In y tokens) ->
    In x new \/ In x tokens ->
    In x (fst (add_loop new tokens existing added)).
Proof.
  induction new as [|t rest IH]; intros tokens existing added x Hsub Hx.
  - destruct Hx as [[]|Hx]. exact Hx.
  - cbn [add_loop]. destruct (existsb (str_eqb t) existing) eqn:Ht.
    + apply IH; [exact Hsub|].
      destruct Hx as [[->|Hx]|Hx]; auto.
      right. apply Hsub. now apply existsb_str_eqb.
    + apply IH.
      * intros y [->|Hy]; apply in_or_app; [right; now left | left; auto].
      * destruct Hx as [[->|Hx]|Hx]; auto;
          right; apply in_or_app; [right; now left | now left].
Qed.

(** Duplicates are skipped: for every list and every new lines, adding the
    same lines again adds nothing and leaves the list as it is. *)
Lemma add_twice_skips (tokens new : list str) :
  add_twice tokens new = (fst (add_tokens tokens new), 0%nat).
Proof.
  unfold add_twice, add_tokens at 1. apply add_loop_known.
  intros x Hx. unfold add_tokens. apply add_loop_holds; auto.
Qed.

Lemma copies_app (t : str) (a b : list str) :
  copies t (a ++ b) = (copies t a + copies t b)%nat.
Proof. unfold copies. now rewrite filter_app, length_app. Qed.

Lemma copies_none (t : str) (l : list str) :
  existsb (str_eqb t) l = false -> copies t l = 0%nat.
Proof.
  unfold copies. induction l as [|x l IH]; cbn; [reflexivity|].
  intros H. apply orb_false_iff in H as [Hx Hl]. rewrite Hx. auto.
Qed.

Lemma copies_some (t : str) (l : list str) :
  existsb (str_eqb t) l = true -> (1 <= copies t l)%nat.
Proof.
  unfold copies. induction l as [|x l IH]; cbn; [discriminate|].
  intros H. destruct (str_eqb t x); cbn; [lia|]. auto.
Qed.

(** C3, as stated, fails: a stored list that already holds a token twice
    (the file is read as it is) keeps both copies through two additions of
    that token. *)
Lemma add_twice_keeps_stored_duplicates :
  stored_tokens (World (Holds (json_dumps [u "a"; u "a"])) Absent [] 0 0 0)
  = Some [u "a"; u "a"]
  /\ new_tokens (u "a") = [u "a"]
  /\ add_twice [u "a"; u "a"] (new_tokens (u "a")) = ([u "a"; u "a"], 0%nat)
  /\ copies (u "a") (fst (add_twice [u "a"; u "a"] (new_tokens (u "a")))) = 2%nat.
Proof. repeat split. Qed.

(** C3, amended: for every list that holds the token at most once, adding
    the token (a submitted text that is this one token) twice leaves exactly
    one copy of it; the second addition counts 0 and changes nothing. *)
Theorem add_twice_adds_once (tokens : list str) (token_input t : str) :
  new_tokens token_input = [t] ->
  (copies t tokens <= 1)%nat ->
  copies t (fst (add_twice tokens (new_tokens token_input))) = 1%nat
  /\ snd (add_twice tokens (new_tokens token_input)) = 0%nat
  /\ fst (add_twice tokens (new_tokens token_input))
     = fst (add_tokens tokens (new_tokens token_input)).
Proof.
  intros Hnew Hcount. rewrite add_twice_skips, Hnew. cbn [fst snd].
  split; [|split; reflexivity].
  unfold add_tokens. cbn [add_loop].
  destruct (existsb (str_eqb t) tokens) eqn:Ht; cbn [fst].
  - apply copies_some in Ht. lia.
  - rewrite copies_app, (copies_none t tokens Ht).
    unfold copies. cbn. now rewrite str_eqb_refl.
Qed.

Lemma add_twice_adds_once_witness :
  new_tokens (u "  abc123 ") = [u "abc123"]
  /\ add_twice [u "xyz789"] (new_tokens (u "  abc123 "))
     = ([u "xyz789"; u "abc123"], 0%nat)
  /\ copies (u "abc123") (fst (add_twice [u "xyz789"] (new_tokens (u "  abc123 "))))
     = 1%nat.
Proof.
  split; [reflexivity|]. split; [reflexivity|].
  apply (add_twice_adds_once [u "xyz789"] (u "  abc123 ") (u "abc123"));
    [reflexivity | cbv; lia].
Defined.

(** ** Deleting a token *)

(** No row carries the clicked button: the loop passes by. *)
Lemma token_rows_miss (E : env) (k : nat) (tokens rows : list str) (w : world) :
  forall i, (k < i \/ i + length rows <= k)%nat ->
            token_rows E (ClickDelete k) tokens i rows w = (Ok (tokens, []), w).
Proof.
  induction rows as [|t more IH]; intros i Hk; [reflexivity|].
  cbn [token_rows clicked_delete clicked_test].
  cbn [length] in Hk.
  destruct (Nat.eqb_spec k i) as [->|Hne]; [lia|].
  apply IH. lia.
Qed.

(** The row that carries it runs the delete handler (lines 161-164). *)
Lemma token_rows_hit (E : env) (k : nat) (tokens rows : list str) (w : world) :
  forall i, (i <= k < i + length rows)%nat ->
            token_rows E (ClickDelete k) tokens i rows w
            = (tokens' <- list_pop k tokens ;;
               save_tokens tokens' ;;
               append_log E (u "UI: Deleted token index " ++ str_of_nat k) ;;
               ret (tokens', [Rerun])) w.
Proof.
  induction rows as [|t more IH]; intros i Hk; cbn [length] in Hk; [lia|].
  cbn [token_rows clicked_delete clicked_test].
  destruct (Nat.eqb_spec k i) as [->|Hne]; [reflexivity|].
  apply IH. lia.
Qed.

Lemma list_pop_in_range (i : nat) (tokens : list str) (w : world) :
  (i < length tokens)%nat -> list_pop i tokens w = (Ok (without i tokens), w).
Proof.
  intros Hi. unfold list_pop. apply Nat.ltb_lt in Hi. now rewrite Hi.
Qed.

Lemma list_pop_out_of_range (i : nat) (tokens : list str) (w : world) :
  (length tokens <= i)%nat ->
  list_pop i tokens w = (Raise (Exn "IndexError" (u "pop index out of range")), w).
Proof.
  intros Hi. unfold list_pop. apply Nat.ltb_ge in Hi. now rewrite Hi.
Qed.

Lemma token_list_delete_in_range (E : env) (k : nat) (tokens : list str) (w : world) :
  (k < length tokens)%nat ->
  token_list E (ClickDelete k) tokens w
  = (save_tokens (without k tokens) ;;
     append_log E (u "UI: Deleted token index " ++ str_of_nat k) ;;
     ret (without k tokens, [Rerun])) w.
Proof.
  intros Hk. unfold token_list.
  destruct tokens as [|t ts] eqn:Htokens; [cbn in Hk; lia|].
  rewrite <- Htokens in *. rewrite token_rows_hit by lia.
  unfold bind at 1. now rewrite list_pop_in_range.
Qed.

Lemma token_list_delete_out_of_range (E : env) (k : nat) (tokens : list str) (w : world) :
  (length tokens <= k)%nat ->
  exists shown, token_list E (ClickDelete k) tokens w = (Ok (tokens, shown), w).
Proof.
  intros Hk. unfold token_list. destruct tokens as [|t ts] eqn:Htokens.
  - eexists. reflexivity.
  - rewrite <- Htokens in *. exists []. apply token_rows_miss. lia.
Qed.

Lemma save_tokens_sink_ok (tokens : list str) (w : world) :
  sink_ok w = true ->
  exists w', save_tokens tokens w = (Ok tt, w') /\ sink_ok w' = true.
Proof.
  intros H. unfold save_tokens, write_text.
  destruct (write_faults w) as [|[e|] fs] eqn:Hf.
  - eexists. split; [reflexivity|].
    unfold sink_ok in *. cbn [set_file log_file write_faults]. exact H.
  - unfold sink_ok in H. rewrite Hf in H. cbn [forallb] in H.
    rewrite andb_false_r in H. discriminate.
  - eexists. split; [reflexivity|].
    unfold sink_ok in *. rewrite Hf in H.
    cbn [set_file set_faults log_file write_faults forallb andb] in *. exact H.
Qed.

(** What is left once the element at [i] is taken out: the elements before
    [i] stay where they are, those after it move up by one. *)
Lemma without_nth (i : nat) (tokens : list str) :
  (i < length tokens)%nat ->
  length (without i tokens) = (length tokens - 1)%nat
  /\ forall j,
       nth_error (without i tokens) j
       = if (j <? i)%nat then nth_error tokens j else nth_error tokens (S j).
Proof.
  intros Hi. unfold without. split.
  - rewrite length_app, firstn_length_le, length_skipn by lia. lia.
  - intros j. destruct (Nat.ltb_spec j i) as [Hj|Hj].
    + rewrite nth_error_app1 by (rewrite firstn_length_le; lia).
      rewrite nth_error_firstn. apply Nat.ltb_lt in Hj. now rewrite Hj.
    + rewrite nth_error_app2 by (rewrite firstn_length_le; lia).
      rewrite firstn_length_le by lia. rewrite nth_error_skipn.
      f_equal. lia.
Qed.

(** C7: deleting at an index that is not below the length of the list (the
    length itself included) does nothing: the page draws no such button, the
    list, the token file and the log stay as they are, and [pop] itself would
    raise [IndexError].  An index below the length takes out the element at
    that position and no other, and the shorter list is saved.  Whatever the
    index, the list afterwards is the list before or the list without the
    element at the index. *)
Theorem delete_respects_bounds (E : env) (tokens : list str) (w : world) :
  (forall i, (length tokens <= i)%nat ->
     (exists shown, token_list E (ClickDelete i) tokens w = (Ok (tokens, shown), w))
     /\ list_pop i tokens w
        = (Raise (Exn "IndexError" (u "pop index out of range")), w))
  /\ (forall i, (i < length tokens)%nat ->
        list_pop i tokens w = (Ok (without i tokens), w)
        /\ length (without i tokens) = (length tokens - 1)%nat
        /\ (forall j, nth_error (without i tokens) j
                      = if (j <? i)%nat then nth_error tokens j
                        else nth_error tokens (S j))
        /\ (sink_ok w = true ->
            exists w',
              token_list E (ClickDelete i) tokens w
              = (Ok (without i tokens, [Rerun]), w')
              /\ tokens_file w' = Holds (json_dumps (without i tokens))))
  /\ (forall i tokens' shown w',
        token_list E (ClickDelete i) tokens w = (Ok (tokens', shown), w') ->
        tokens' = tokens
        \/ ((i < length tokens)%nat /\ tokens' = without i tokens)).
Proof.
  split; [|split].
  - intros i Hi. split.
    + apply token_list_delete_out_of_range. exact Hi.
    + apply list_pop_out_of_range. exact Hi.
  - intros i Hi. split; [apply list_pop_in_range; exact Hi|].
    destruct (without_nth i tokens Hi) as [Hlen Hnth].
    split; [exact Hlen|]. split; [exact Hnth|].
    intros Hsink. rewrite token_list_delete_in_range by exact Hi.
    destruct (save_tokens_sink_ok (without i tokens) w Hsink) as [w1 [Hsave H1]].
    unfold bind at 1. rewrite Hsave. unfold bind.
    rewrite append_log_ok by exact H1. eexists. split; [reflexivity|].
    unfold logged. cbn [tokens_file].
    apply save_tokens_ok in Hsave as [Hfile _]. exact Hfile.
  - intros i tokens' shown w' Hrun.
    destruct (Nat.lt_ge_cases i (length tokens)) as [Hi|Hi].
    + right. split; [exact Hi|].
      rewrite token_list_delete_in_range in Hrun by exact Hi.
      unfold bind at 1 in Hrun.
      destruct (save_tokens (without i tokens) w) as [[[]|e] w1]; [|discriminate].
      unfold bind in Hrun.
      destruct (append_log E _ w1) as [[[]|e] w2]; [|discriminate].
      unfold ret in Hrun. inversion Hrun. reflexivity.
    + left. destruct (token_list_delete_out_of_range E i tokens w Hi) as [s Hs].
      rewrite Hs in Hrun. inversion Hrun. reflexivity.
Qed.

(** * Further properties of the program *)

(** ** What an operation leaves alone *)

(** [append_log], whatever its outcome, reads the clock once and touches
    neither the token file nor the counters of the remote end. *)
Lemma append_log_frame (E : env) (text : str) (w w' : world) (r : res unit) :
  append_log E text w = (r, w') ->
  tokens_file w' = tokens_file w /\ posts w' = posts w
  /\ uuid_draws w' = uuid_draws w /\ clock_reads w' = S (clock_reads w).
Proof.
  unfold append_log, bind, now, path_exists, read_text, write_text.
  cbn [get_file log_file write_faults tokens_file clock_reads uuid_draws posts
       set_file set_faults].
  destruct (log_file w) as [|e|e|old]; destruct (write_faults w) as [|[e'|] fs];
    intros H; inversion H; subst; cbn; repeat split.
Qed.

Lemma append_log_written (E : env) (text : str) (w w' : world) :
  append_log E text w = (Ok tt, w') ->
  log_file w'
  = Holds (log_read w ++ isoformat_now E (clock_reads w) ++ u " - " ++ text ++ [10]).
Proof.
  unfold append_log, log_read, bind, now, path_exists, read_text, write_text.
  cbn [get_file log_file write_faults tokens_file clock_reads uuid_draws posts
       set_file set_faults].
  destruct (log_file w) as [|e|e|old]; destruct (write_faults w) as [|[e'|] fs];
    intros H; inversion H; subst; reflexivity.
Qed.

(** The vote client either returns what the request amounted to, the
    response line being logged; or it takes the exception path, whose log line
    decides between a failure result and an escaping exception. *)
Lemma run_request_cases (E : env) (token : str) (w w' : world)
      (r : res (bool * option nat * body)) :
  run_request_for_token E token w = (r, w') ->
  (exists status_code text parsed,
      outcome_at E w 0 token = Responds status_code text parsed
      /\ append_log E (response_line token status_code text) (after_post w)
         = (Ok tt, w')
      /\ r = Ok (answer_of (Responds status_code text parsed)))
  \/ (exists e0 w0 r0,
        tokens_file w0 = tokens_file w /\ posts w0 = S (posts w)
        /\ uuid_draws w0 = S (uuid_draws w)
        /\ append_log E (exception_line token e0) w0 = (r0, w')
        /\ r = match r0 with
               | Ok _ => Ok (false, None, Raw (str_of_exn e0))
               | Raise e => Raise e
               end).
Proof.
  unfold outcome_at. rewrite !Nat.add_0_r.
  unfold run_request_for_token, build_headers, try_except, bind, uuid4,
    requests_post, ret.
  cbn [tokens_file log_file write_faults clock_reads uuid_draws posts].
  change (World (tokens_file w) (log_file w) (write_faults w) (clock_reads w)
                (S (uuid_draws w)) (S (posts w))) with (after_post w).
  destruct (remote E (posts w) API_URL payload
                   (headers_of (uuid4_str E (uuid_draws w)) token))
    as [status_code text parsed|e].
  - destruct (append_log E (response_line token status_code text) (after_post w))
      as [[[]|e1] w1] eqn:Hlog.
    + intros H. left. exists status_code, text, parsed. split; [reflexivity|].
      unfold lift in H. cbn [answer_of].
      destruct parsed; inversion H; subst;
        (split; [exact Hlog | reflexivity]).
    + intros H. right.
      destruct (append_log_frame _ _ _ _ _ Hlog) as [Ht [Hp [Hu _]]].
      destruct (append_log E (exception_line token e1) w1) as [r0 w2] eqn:Hlog'.
      exists e1, w1, r0.
      assert (Hw : w2 = w') by (destruct r0 as [[]|e2]; now inversion H).
      subst w2.
      split; [exact Ht|]. split; [exact Hp|]. split; [exact Hu|].
      split; [exact Hlog'|].
      destruct r0 as [[]|e2]; inversion H; reflexivity.
  - intros H. right.
    destruct (append_log E (exception_line token e) (after_post w))
      as [r0 w2] eqn:Hlog'.
    exists e, (after_post w), r0.
    assert (Hw : w2 = w') by (destruct r0 as [[]|e2]; now inversion H).
    subst w2.
    split; [reflexivity|]. split; [reflexivity|]. split; [reflexivity|].
    split; [exact Hlog'|].
    destruct r0 as [[]|e2]; inversion H; reflexivity.
Qed.

Lemma run_request_frame (E : env) (token : str) (w w' : world)
      (r : res (bool * option nat * body)) :
  run_request_for_token E token w = (r, w') ->
  tokens_file w' = tokens_file w /\ posts w' = S (posts w)
  /\ uuid_draws w' = S (uuid_draws w).
Proof.
  intros H. apply run_request_cases in H as
      [[sc [text [parsed [_ [Hlog _]]]]] | [e0 [w0 [r0 [Ht [Hp [Hu [Hlog _]]]]]]]];
    apply append_log_frame in Hlog as [Ht' [Hp' [Hu' _]]].
  - repeat split; assumption.
  - repeat split; congruence.
Qed.

Lemma for_tokens_frame (E : env) (tokens : list str) :
  forall (results : list RunResult) (w w' : world) (r : res (list RunResult)),
    for_tokens E tokens results w = (r, w') ->
    tokens_file w' = tokens_file w
    /\ (posts w <= posts w' <= posts w + length tokens)%nat
    /\ (forall out, r = Ok out -> posts w' = (posts w + length tokens)%nat).
Proof.
  induction tokens as [|t ts IH]; intros results w w' r H.
  - cbn in H. inversion H; subst. cbn. repeat split; try lia.
  - cbn [for_tokens] in H. unfold bind at 1 in H.
    destruct (run_request_for_token E t w) as [[[[ok status] b]|e] w1] eqn:Hreq;
      apply run_request_frame in Hreq as [Ht [Hp _]].
    + apply IH in H as [Ht' [Hp' Hok]]. cbn [length].
      split; [congruence|]. split; [lia|].
      intros out Hout. rewrite (Hok out Hout). lia.
    + inversion H; subst. cbn [length]. split; [assumption|].
      split; [lia|]. intros out Hout. discriminate.
Qed.

Lemma run_batch_frame (E : env) (tokens : list str) (w w' : world)
      (r : res (list RunResult)) :
  run_batch E tokens w = (r, w') ->
  tokens_file w' = tokens_file w
  /\ (posts w <= posts w' <= posts w + length tokens)%nat
  /\ (forall out, r = Ok out -> posts w' = (posts w + length tokens)%nat).
Proof.
  unfold run_batch. unfold bind at 1.
  destruct (append_log E _ w) as [[[]|e] w1] eqn:Hstart;
    apply append_log_frame in Hstart as [Ht [Hp _]].
  - unfold bind at 1.
    destruct (for_tokens E tokens [] w1) as [[out|e] w2] eqn:Hloop;
      apply for_tokens_frame in Hloop as [Ht' [Hp' Hok]].
    + unfold bind.
      destruct (append_log E _ w2) as [[[]|e] w3] eqn:Hend;
        apply append_log_frame in Hend as [Ht'' [Hp'' _]];
        unfold ret; intros H; inversion H; subst;
        (split; [congruence|]); (split; [lia|]);
        intros out' Hout; try discriminate;
        rewrite Hp'', (Hok out eq_refl); lia.
    + intros H. inversion H; subst.
      split; [congruence|]. split; [lia|]. intros out Hout. discriminate.
  - intros H. inversion H; subst.
    split; [assumption|]. split; [lia|]. intros out Hout. discriminate.
Qed.

(** X2: a batch never writes [tokens.json]: whatever the requests and the
    log do, and whether the batch returns or raises, the token file is
    afterwards what it was. *)
Theorem batch_leaves_token_file (E : env) (w w' : world) (r : res (list RunResult)) :
  run_all_tokens E w = Some (r, w') -> tokens_file w' = tokens_file w.
Proof.
  intros H.
  apply run_all_tokens_cases in H as [[e [_ [_ ->]]] | [tokens [_ Hbatch]]];
    [reflexivity|].
  apply run_batch_frame in Hbatch as [Ht _]. exact Ht.
Qed.

Lemma batch_leaves_token_file_witness :
  exists r w',
    run_all_tokens E0 w_three_faulty = Some (r, w')
    /\ tokens_file w' = tokens_file w_three_faulty.
Proof.
  destruct (run_all_tokens E0 w_three_faulty) as [[r w']|] eqn:Hrun;
    [|cbv in Hrun; discriminate].
  exists r, w'. split; [reflexivity|].
  exact (batch_leaves_token_file E0 w_three_faulty w' r Hrun).
Defined.

(** X3: no retry: a batch sends at most one request per stored token, and
    exactly one per token when it returns. *)
Theorem batch_sends_one_request_per_token
        (E : env) (w w' : world) (tokens : list str) (r : res (list RunResult)) :
  stored_tokens w = Some tokens ->
  run_all_tokens E w = Some (r, w') ->
  (posts w <= posts w' <= posts w + length tokens)%nat
  /\ (forall results, r = Ok results -> posts w' = (posts w + length tokens)%nat).
Proof.
  intros Hstore. rewrite (run_all_tokens_unfold E w tokens Hstore).
  intros H. inversion H as [Hbatch].
  apply run_batch_frame in Hbatch as [_ Hp]. exact Hp.
Qed.

Lemma batch_sends_one_request_per_token_witness :
  exists results w',
    run_all_tokens E0 w_three = Some (Ok results, w') /\ posts w' = 3%nat.
Proof.
  destruct (run_all_tokens E0 w_three) as [[[results|e] w']|] eqn:Hrun;
    [|cbv in Hrun; discriminate|cbv in Hrun; discriminate].
  exists results, w'. split; [reflexivity|].
  destruct (batch_sends_one_request_per_token
              E0 w_three w'
              [u "token-one-aaaa"; u "token-two-bbbb"; u "token-three-cc"]
              (Ok results) eq_refl Hrun) as [_ H].
  exact (H results eq_refl).
Defined.

(** ** The log *)

Lemma universal_newlines_no_cr (s : str) :
  forallb (fun c => negb (c =? 13)) (universal_newlines s) = true.
Proof.
  assert (H : forall n s, (length s <= n)%nat ->
            forallb (fun c => negb (c =? 13)) (universal_newlines s) = true).
  { induction n as [|n IH]; intros [|c r] Hlen; cbn in *; try reflexivity; try lia.
    destruct (c =? 13) eqn:Hc.
    - cbn. destruct r as [|d r']; [reflexivity|].
      destruct (d =? 10); apply IH; cbn in *; lia.
    - cbn. rewrite Hc. cbn. apply IH. lia. }
  apply (H (length s)). lia.
Qed.

Lemma universal_newlines_app (a b : str) :
  forallb (fun c => negb (c =? 13)) a = true ->
  universal_newlines (a ++ b) = a ++ universal_newlines b.
Proof.
  induction a as [|c a IH]; cbn; [reflexivity|].
  intros H. apply andb_true_iff in H as [Hc Ha].
  destruct (c =? 13); [discriminate|]. now rewrite IH.
Qed.

Lemma log_read_no_cr (w : world) :
  forallb (fun c => negb (c =? 13)) (log_read w) = true.
Proof.
  unfold log_read. destruct (log_file w); try reflexivity.
  apply universal_newlines_no_cr.
Qed.

Lemma log_read_appended (E : env) (text : str) (w w' : world) :
  append_log E text w = (Ok tt, w') ->
  log_read w' = log_read w ++ entry E (clock_reads w) text.
Proof.
  intros H. apply append_log_written in H.
  unfold log_read at 1. rewrite H.
  apply universal_newlines_app, log_read_no_cr.
Qed.

(** X1: the log only grows.  After an [append_log] that returned, the log
    reads as it read before followed by one entry: the time stamp, the text
    and a newline; the token file is not touched. *)
Theorem append_log_appends (E : env) (text : str) (w w' : world) :
  append_log E text w = (Ok tt, w') ->
  log_read w'
  = log_read w
    ++ universal_newlines (isoformat_now E (clock_reads w) ++ u " - " ++ text ++ [10])
  /\ tokens_file w' = tokens_file w.
Proof.
  intros H. split.
  - apply (log_read_appended E text w w' H).
  - apply append_log_frame in H as [Ht _]. exact Ht.
Qed.

Lemma append_log_appends_witness :
  append_log E0 (u "RUN ALL end")
             (World Absent (Holds (u "first line" ++ [13; 10])) [] 0 0 0)
  = (Ok tt,
     World Absent
           (Holds (u "first line" ++ [10] ++ u "2024-01-01T02:00:00 - RUN ALL end" ++ [10]))
           [] 1 0 0)
  /\ log_read (World Absent
                 (Holds (u "first line" ++ [10]
                         ++ u "2024-01-01T02:00:00 - RUN ALL end" ++ [10]))
                 [] 1 0 0)
     = u "first line" ++ [10] ++ u "2024-01-01T02:00:00 - RUN ALL end" ++ [10].
Proof.
  split; [reflexivity|].
  destruct (append_log_appends
              E0 (u "RUN ALL end")
              (World Absent (Holds (u "first line" ++ [13; 10])) [] 0 0 0)
              (World Absent
                 (Holds (u "first line" ++ [10]
                         ++ u "2024-01-01T02:00:00 - RUN ALL end" ++ [10]))
                 [] 1 0 0) eq_refl) as [H _].
  rewrite H. reflexivity.
Defined.

(** ** Exceptions that leave the batch *)

(** Whatever [append_log] does, the exceptions the sink is still going to
    raise were among those it was going to raise before; what [append_log]
    raises is one of them. *)
Lemma append_log_sink (E : env) (text : str) (w w' : world) (r : res unit) :
  append_log E text w = (r, w') ->
  (forall e, sink_raises w' e -> sink_raises w e)
  /\ (forall e, r = Raise e -> sink_raises w e).
Proof.
  unfold append_log, bind, now, path_exists, read_text, write_text, sink_raises.
  cbn [get_file log_file write_faults tokens_file clock_reads uuid_draws posts
       set_file set_faults].
  destruct (log_file w) as [|e0|e0|old]; destruct (write_faults w) as [|[e'|] fs];
    intros H; inversion H; subst;
    cbn [log_file write_faults tokens_file clock_reads uuid_draws posts];
    (split; [intros e [He | [He | He]] | intros e He; inversion He; subst]);
    try discriminate; auto using in_cons, in_eq.
Qed.

Lemma run_request_sink (E : env) (token : str) (w w' : world)
      (r : res (bool * option nat * body)) :
  run_request_for_token E token w = (r, w') ->
  (forall e, sink_raises w' e -> sink_raises w e)
  /\ (forall e, r = Raise e -> sink_raises w e).
Proof.
  unfold run_request_for_token, build_headers, try_except, bind, uuid4,
    requests_post, ret.
  cbn [tokens_file log_file write_faults clock_reads uuid_draws posts].
  change (World (tokens_file w) (log_file w) (write_faults w) (clock_reads w)
                (S (uuid_draws w)) (S (posts w))) with (after_post w).
  destruct (remote E (posts w) API_URL payload
                   (headers_of (uuid4_str E (uuid_draws w)) token))
    as [status_code text parsed|e0].
  - destruct (append_log E (response_line token status_code text) (after_post w))
      as [[[]|e1] w1] eqn:Hlog; apply append_log_sink in Hlog as [Hmono Hraise].
    + unfold lift. intros H.
      assert (Hw : w1 = w' /\ forall e, r <> Raise e)
        by (destruct parsed; inversion H; subst;
            split; try reflexivity; intros x; discriminate).
      destruct Hw as [-> Hr]. split; [exact Hmono|].
      intros e He. now destruct (Hr e).
    + destruct (append_log E (exception_line token e1) w1) as [r0 w2] eqn:Hlog'.
      apply append_log_sink in Hlog' as [Hmono' Hraise'].
      intros H.
      assert (Hw : w2 = w') by (destruct r0 as [[]|e2]; now inversion H).
      subst w2. split; [intros e He; exact (Hmono e (Hmono' e He))|].
      intros e He. apply Hmono, Hraise'.
      destruct r0 as [[]|e2]; inversion H; subst; congruence.
  - destruct (append_log E (exception_line token e0) (after_post w))
      as [r0 w2] eqn:Hlog'.
    apply append_log_sink in Hlog' as [Hmono' Hraise'].
    intros H.
    assert (Hw : w2 = w') by (destruct r0 as [[]|e2]; now inversion H).
    subst w2. split; [exact Hmono'|].
    intros e He. apply Hraise'.
    destruct r0 as [[]|e2]; inversion H; subst; congruence.
Qed.

Lemma for_tokens_sink (E : env) (tokens : list str) :
  forall (results : list RunResult) (w w' : world) (r : res (list RunResult)),
    for_tokens E tokens results w = (r, w') ->
    (forall e, sink_raises w' e -> sink_raises w e)
    /\ (forall e, r = Raise e -> sink_raises w e).
Proof.
  induction tokens as [|t ts IH]; intros results w w' r H.
  - cbn in H. inversion H; subst. split; [auto|]. intros e He. discriminate.
  - cbn [for_tokens] in H. unfold bind at 1 in H.
    destruct (run_request_for_token E t w) as [[[[ok status] b]|e1] w1] eqn:Hreq;
      apply run_request_sink in Hreq as [Hmono Hraise].
    + apply IH in H as [Hmono' Hraise'].
      split; intros e He; [exact (Hmono e (Hmono' e He))|].
      exact (Hmono e (Hraise' e He)).
    + inversion H; subst. split; [exact Hmono|].
      intros e He. inversion He; subst. now apply Hraise.
Qed.

(** X5: for a stored list of tokens, the only exceptions that leave a batch
    are those of the log sink: whenever [run_all_tokens] raises [e], either
    reading the log raises [e] ([exists()] or [read_text]) or [e] is the
    fault of one of the coming writes.  What [requests.post] raises is caught
    and never leaves the batch. *)
Theorem batch_raises_only_log_exceptions
        (E : env) (w w' : world) (tokens : list str) (e : exn) :
  stored_tokens w = Some tokens ->
  run_all_tokens E w = Some (Raise e, w') ->
  sink_raises w e.
Proof.
  intros Hstored H. rewrite (run_all_tokens_unfold E w tokens Hstored) in H.
  inversion H as [Hbatch]. clear H. revert Hbatch.
  unfold run_batch. unfold bind at 1.
  destruct (append_log E _ w) as [[[]|e1] w1] eqn:Hstart;
    apply append_log_sink in Hstart as [Hmono Hraise].
  - unfold bind at 1.
    destruct (for_tokens E tokens [] w1) as [[out|e2] w2] eqn:Hloop;
      apply for_tokens_sink in Hloop as [Hmono' Hraise'].
    + unfold bind.
      destruct (append_log E _ w2) as [[[]|e3] w3] eqn:Hend;
        unfold ret; intros H; inversion H; subst.
      apply append_log_sink in Hend as [_ Hraise''].
      exact (Hmono e (Hmono' e (Hraise'' e eq_refl))).
    + intros H. inversion H; subst. exact (Hmono e (Hraise' e eq_refl)).
  - intros H. inversion H; subst. exact (Hraise e eq_refl).
Qed.

Lemma batch_raises_only_log_exceptions_witness :
  stored_tokens w_three_faulty
  = Some [u "token-one-aaaa"; u "token-two-bbbb"; u "token-three-cc"]
  /\ (exists w', run_all_tokens E0 w_three_faulty = Some (Raise disk_full, w'))
  /\ sink_raises w_three_faulty disk_full.
Proof.
  split; [reflexivity|].
  destruct (run_all_tokens E0 w_three_faulty) as [[[results|e] w']|] eqn:Hrun;
    [cbv in Hrun; discriminate| |cbv in Hrun; discriminate].
  assert (He : e = disk_full) by (cbv in Hrun; inversion Hrun; reflexivity).
  subst e. split; [exists w'; reflexivity|].
  exact (batch_raises_only_log_exceptions E0 w_three_faulty w' _ disk_full
                                          eq_refl Hrun).
Defined.

(** ** What the vote client's answer means *)

(** X15: the vote client reports success only when the request was answered
    and the line for the answer reached the log: [ok = True] comes with the
    status of the response, with what [r.json()] returned, or the text when
    it raised, and with the response line as the last entry of the log. *)
Theorem success_means_answered_and_logged
        (E : env) (token : str) (w w' : world) (st : option nat) (b : body) :
  run_request_for_token E token w = (Ok (true, st, b), w') ->
  exists status_code text parsed,
    outcome_at E w 0 token = Responds status_code text parsed
    /\ st = Some status_code
    /\ b = match parsed with Ok v => Parsed v | Raise _ => Raw text end
    /\ log_read w'
       = log_read w
         ++ entry E (clock_reads w) (response_line token status_code text).
Proof.
  intros H. apply run_request_cases in H as
      [[sc [text [parsed [Hout [Hlog Hr]]]]] | [e0 [w0 [r0 [_ [_ [_ [_ Hr]]]]]]]].
  - exists sc, text, parsed. cbn [answer_of] in Hr. inversion Hr; subst.
    repeat split; try assumption; try reflexivity.
    apply log_read_appended in Hlog. exact Hlog.
  - destruct r0 as [[]|e]; discriminate.
Qed.

Lemma success_means_answered_and_logged_witness :
  exists w',
    run_request_for_token E0 (u "token-one-aaaa") w_empty
    = (Ok (true, Some 200%nat, Parsed (JObj [(u "ok", JBool true)])), w')
    /\ outcome_at E0 w_empty 0 (u "token-one-aaaa")
       = Responds 200 (u "{" ++ quote (u "ok") ++ u ":true}")
                  (Ok (JObj [(u "ok", JBool true)]))
    /\ log_read w'
       = entry E0 0 (response_line (u "token-one-aaaa") 200
                                   (u "{" ++ quote (u "ok") ++ u ":true}")).
Proof.
  destruct (run_request_for_token E0 (u "token-one-aaaa") w_empty)
    as [r w'] eqn:Hrun.
  assert (Hr : r = Ok (true, Some 200%nat, Parsed (JObj [(u "ok", JBool true)])))
    by (cbv in Hrun; inversion Hrun; reflexivity).
  subst r. exists w'. split; [reflexivity|].
  destruct (success_means_answered_and_logged E0 _ _ _ _ _ Hrun)
    as [sc [text [parsed [Hout [_ [_ Hlog]]]]]].
  split; [reflexivity|].
  assert (Hsc : Responds sc text parsed
                = Responds 200 (u "{" ++ quote (u "ok") ++ u ":true}")
                           (Ok (JObj [(u "ok", JBool true)])))
    by (rewrite <- Hout; reflexivity).
  inversion Hsc; subst. exact Hlog.
Defined.

Lemma for_tokens_well_formed (E : env) (tokens : list str) :
  forall (results out : list RunResult) (w w' : world),
    Forall well_formed results ->
    for_tokens E tokens results w = (Ok out, w') ->
    Forall well_formed out.
Proof.
  induction tokens as [|t ts IH]; intros results out w w' Hacc H.
  - cbn in H. inversion H; subst. exact Hacc.
  - cbn [for_tokens] in H. unfold bind at 1 in H.
    destruct (run_request_for_token E t w) as [[[[ok status] b]|e1] w1] eqn:Hreq;
      [|discriminate].
    apply IH in H; [exact H|].
    apply Forall_app. split; [exact Hacc|]. constructor; [|constructor].
    apply run_request_cases in Hreq as
        [[sc [text [parsed [_ [_ Hr]]]]] | [e0 [w0 [r0 [_ [_ [_ [_ Hr]]]]]]]].
    + cbn [answer_of] in Hr. inversion Hr; subst. left. cbn. eauto.
    + destruct r0 as [[]|e]; inversion Hr; subst. right. cbn. eauto.
Qed.

(** X16: every result a batch returns either is a success with a status, or
    is a failure without status whose body is a text (that of the
    exception). *)
Theorem batch_results_well_formed
        (E : env) (w w' : world) (results : list RunResult) :
  run_all_tokens E w = Some (Ok results, w') -> Forall well_formed results.
Proof.
  intros H.
  apply run_all_tokens_cases in H as [[e [_ [H _]]] | [tokens [_ Hbatch]]];
    [discriminate|].
  revert Hbatch.
  unfold run_batch. unfold bind at 1.
  destruct (append_log E _ w) as [[[]|e1] w1]; [|discriminate].
  unfold bind at 1.
  destruct (for_tokens E tokens [] w1) as [[out|e2] w2] eqn:Hloop; [|discriminate].
  unfold bind. destruct (append_log E _ w2) as [[[]|e3] w3]; [|discriminate].
  unfold ret. intros H. inversion H; subst.
  apply (for_tokens_well_formed E tokens [] results w1 w2); [constructor|exact Hloop].
Qed.

Lemma batch_results_well_formed_witness :
  exists results w',
    run_all_tokens E0 w_three = Some (Ok results, w')
    /\ Forall well_formed results.
Proof.
  destruct (run_all_tokens E0 w_three) as [[[results|e] w']|] eqn:Hrun;
    [|cbv in Hrun; discriminate|cbv in Hrun; discriminate].
  exists results, w'. split; [reflexivity|].
  exact (batch_results_well_formed E0 w_three w' results Hrun).
Defined.

(** ** What a batch writes to the log *)

Lemma log_read_logged (E : env) (text : str) (w : world) :
  log_read (logged E text w) = log_read w ++ entry E (clock_reads w) text.
Proof.
  unfold logged, log_read at 1. cbn [log_file].
  apply universal_newlines_app, log_read_no_cr.
Qed.

Lemma for_tokens_entries (E : env) (tokens : list str) :
  forall (results : list RunResult) (w : world),
    sink_ok w = true ->
    exists out w',
      for_tokens E tokens results w = (Ok out, w')
      /\ sink_ok w' = true
      /\ log_read w'
         = log_read w
           ++ token_entries E (clock_reads w) (posts w) (uuid_draws w) tokens
      /\ clock_reads w' = (clock_reads w + length tokens)%nat.
Proof.
  induction tokens as [|t ts IH]; intros results w H.
  - exists results, w. cbn. rewrite app_nil_r, Nat.add_0_r. auto.
  - cbn [for_tokens]. unfold bind at 1. rewrite run_request_ok by exact H.
    set (w1 := logged E (line_of t (outcome_at E w 0 t)) (after_post w)).
    assert (H1 : sink_ok w1 = true) by (apply sink_ok_logged; exact H).
    destruct (answer_of (outcome_at E w 0 t)) as [[ok status] body].
    destruct (IH (results ++ [mkRunResult (slice_to 8 t ++ u "...") ok status body])
                 w1 H1) as [out [w' [Hrun [Hok [Hlog Hclock]]]]].
    exists out, w'. split; [exact Hrun|]. split; [exact Hok|]. split.
    + rewrite Hlog. unfold w1 at 1. rewrite log_read_logged.
      rewrite <- app_assoc. cbn [token_entries].
      unfold outcome_at. rewrite !Nat.add_0_r. reflexivity.
    + rewrite Hclock. cbn [length]. unfold w1, logged, after_post.
      cbn [clock_reads]. lia.
Qed.

Lemma run_batch_entries (E : env) (tokens : list str) (w : world) :
  sink_ok w = true ->
  exists results w',
    run_batch E tokens w = (Ok results, w')
    /\ sink_ok w' = true
    /\ log_read w'
       = log_read w
         ++ entry E (clock_reads w)
                  (u "RUN ALL start tokens_count=" ++ str_of_nat (length tokens))
         ++ token_entries E (S (clock_reads w)) (posts w) (uuid_draws w) tokens
         ++ entry E (S (clock_reads w) + length tokens) (u "RUN ALL end")
    /\ clock_reads w' = (clock_reads w + length tokens + 2)%nat.
Proof.
  intros H. unfold run_batch. unfold bind at 1.
  rewrite append_log_ok by exact H.
  set (w1 := logged E _ w).
  assert (H1 : sink_ok w1 = true) by (apply sink_ok_logged; exact H).
  destruct (for_tokens_entries E tokens [] w1 H1)
    as [out [w2 [Hrun [H2 [Hlog Hclock]]]]].
  unfold bind at 1. rewrite Hrun. unfold bind.
  rewrite append_log_ok by exact H2. unfold ret.
  exists out, (logged E (u "RUN ALL end") w2).
  split; [reflexivity|]. split; [apply sink_ok_logged; exact H2|]. split.
  - rewrite log_read_logged, Hlog. unfold w1 at 1. rewrite log_read_logged.
    rewrite Hclock. unfold w1, logged. cbn [clock_reads posts uuid_draws].
    rewrite <- !app_assoc. reflexivity.
  - unfold logged at 1. cbn [clock_reads]. rewrite Hclock.
    unfold w1, logged. cbn [clock_reads]. lia.
Qed.

(** X4: with a working log sink a batch over [n] stored tokens adds exactly
    [n + 2] entries to the log, in this order: the start entry with the number
    of tokens, one entry per token in the order of the list, the end
    entry. *)
Theorem batch_log_entries (E : env) (w : world) (tokens : list str) :
  stored_tokens w = Some tokens ->
  sink_ok w = true ->
  exists results w',
    run_all_tokens E w = Some (Ok results, w')
    /\ log_read w'
       = log_read w
         ++ entry E (clock_reads w)
                  (u "RUN ALL start tokens_count=" ++ str_of_nat (length tokens))
         ++ token_entries E (S (clock_reads w)) (posts w) (uuid_draws w) tokens
         ++ entry E (S (clock_reads w) + length tokens) (u "RUN ALL end")
    /\ clock_reads w' = (clock_reads w + length tokens + 2)%nat.
Proof.
  intros Hstore Hsink. rewrite (run_all_tokens_unfold E w tokens Hstore).
  destruct (run_batch_entries E tokens w Hsink)
    as [results [w' [Hrun [_ [Hlog Hclock]]]]].
  exists results, w'. rewrite Hrun. auto.
Qed.

Lemma batch_log_entries_witness :
  exists results w',
    run_all_tokens E0 w_three = Some (Ok results, w')
    /\ clock_reads w' = 5%nat
    /\ log_read w'
       = u "2024-01-01T02:00:00 - RUN ALL start tokens_count=3" ++ [10]
         ++ u "2024-01-01T02:00:01 - token[:8]=token-on... status=200 body={"
         ++ quote (u "ok") ++ u ":true}" ++ [10]
         ++ u "2024-01-01T02:00:02 - token[:8]=token-tw... EXCEPTION: connection refused"
         ++ [10]
         ++ u "2024-01-01T02:00:03 - token[:8]=token-th... status=200 body={"
         ++ quote (u "ok") ++ u ":true}" ++ [10]
         ++ u "2024-01-01T02:00:04 - RUN ALL end" ++ [10].
Proof.
  destruct (batch_log_entries
              E0 w_three
              [u "token-one-aaaa"; u "token-two-bbbb"; u "token-three-cc"]
              eq_refl eq_refl) as [results [w' [Hrun [Hlog Hclock]]]].
  exists results, w'. split; [exact Hrun|]. split; [exact Hclock|].
  rewrite Hlog. reflexivity.
Defined.

(** ** The scheduler's job *)

Lemma stored_tokens_same_file (w w' : world) :
  tokens_file w' = tokens_file w -> stored_tokens w' = stored_tokens w.
Proof.
  intros H. unfold stored_tokens. rewrite !load_tokens_cases, H. reflexivity.
Qed.

(** X14: the scheduled job logs that it was triggered and then runs the
    batch: with a working log sink it returns, having sent one request per
    stored token and added [n + 3] entries to the log, the first of them its
    own, and it leaves the token file alone.  When its own log line cannot be
    written it raises that exception and sends no request at all. *)
Theorem job_runs_batch_after_logging (E : env) (w : world) (tokens : list str) :
  stored_tokens w = Some tokens ->
  (sink_ok w = true ->
   exists w' rest,
     job_run_all E w = Some (Ok tt, w')
     /\ posts w' = (posts w + length tokens)%nat
     /\ clock_reads w' = (clock_reads w + length tokens + 3)%nat
     /\ tokens_file w' = tokens_file w
     /\ log_read w'
        = log_read w
          ++ entry E (clock_reads w) (u "JOB_RUN_ALL triggered by scheduler")
          ++ rest)
  /\ (forall e w1,
        append_log E (u "JOB_RUN_ALL triggered by scheduler") w = (Raise e, w1) ->
        job_run_all E w = Some (Raise e, w1) /\ posts w1 = posts w).
Proof.
  intros Hstore. split.
  - intros Hsink. unfold job_run_all. rewrite append_log_ok by exact Hsink.
    set (w1 := logged E (u "JOB_RUN_ALL triggered by scheduler") w).
    assert (H1 : sink_ok w1 = true) by (apply sink_ok_logged; exact Hsink).
    assert (Hstore1 : stored_tokens w1 = Some tokens)
      by (rewrite <- Hstore; apply stored_tokens_same_file; reflexivity).
    rewrite (run_all_tokens_unfold E w1 tokens Hstore1).
    destruct (run_batch_entries E tokens w1 H1)
      as [results [w' [Hrun [_ [Hlog Hclock]]]]].
    rewrite Hrun. eexists. eexists. split; [reflexivity|].
    destruct (run_batch_frame E tokens w1 w' (Ok results) Hrun) as [Ht [_ Hp]].
    split; [exact (Hp results eq_refl)|].
    split; [rewrite Hclock; unfold w1, logged; cbn [clock_reads]; lia|].
    split; [exact Ht|].
    rewrite Hlog. unfold w1 at 1. rewrite log_read_logged.
    rewrite <- app_assoc. reflexivity.
  - intros e w1 Hlog. unfold job_run_all. rewrite Hlog.
    split; [reflexivity|].
    apply append_log_frame in Hlog as [_ [Hp _]]. exact Hp.
Qed.

Lemma job_runs_batch_after_logging_witness :
  (exists w',
      job_run_all E0 w_three = Some (Ok tt, w')
      /\ posts w' = 3%nat /\ clock_reads w' = 6%nat)
  /\ exists w1,
       job_run_all E0 (World (tokens_file w_three) Absent [Some disk_full] 0 0 0)
       = Some (Raise disk_full, w1)
       /\ posts w1 = 0%nat.
Proof.
  split.
  - destruct (job_runs_batch_after_logging
                E0 w_three
                [u "token-one-aaaa"; u "token-two-bbbb"; u "token-three-cc"]
                eq_refl) as [H _].
    destruct (H eq_refl) as [w' [rest [Hrun [Hp [Hc _]]]]].
    exists w'. auto.
  - destruct (job_runs_batch_after_logging
                E0 (World (tokens_file w_three) Absent [Some disk_full] 0 0 0)
                [u "token-one-aaaa"; u "token-two-bbbb"; u "token-three-cc"]
                eq_refl) as [_ H].
    eexists. apply H. cbv. reflexivity.
Defined.

(** ** What adding does to the list *)

Lemma add_loop_spec (new : list str) :
  forall tokens existing added,
    (forall x, In x existing <-> In x tokens) ->
    exists appended,
      add_loop new tokens existing added
      = (tokens ++ appended, (added + length appended)%nat)
      /\ NoDup appended
      /\ (forall x, In x appended <-> In x new /\ ~ In x tokens).
Proof.
  induction new as [|t rest IH]; intros tokens existing added Hset.
  - exists []. cbn. rewrite app_nil_r, Nat.add_0_r.
    split; [reflexivity|]. split; [constructor|]. intros x. tauto.
  - cbn [add_loop]. destruct (existsb (str_eqb t) existing) eqn:Ht.
    + apply existsb_str_eqb in Ht. apply Hset in Ht.
      destruct (IH tokens existing added Hset) as [more [Hrun [Hnd Hin]]].
      exists more. split; [exact Hrun|]. split; [exact Hnd|].
      intros x. rewrite Hin. cbn [In]. split; [tauto|].
      intros [[->|Hx] Hnot]; tauto.
    + assert (Hnew : ~ In t tokens).
      { intros Hin. apply Hset, existsb_str_eqb in Hin. congruence. }
      destruct (IH (tokens ++ [t]) (t :: existing) (S added)) as [more [Hrun [Hnd Hin]]].
      { intros x. cbn [In]. rewrite in_app_iff, Hset. cbn [In]. tauto. }
      exists (t :: more). split; [|split].
      * rewrite Hrun, <- app_assoc. cbn [app length]. f_equal. lia.
      * constructor; [|exact Hnd]. intros Hx. apply Hin in Hx as [_ Hx].
        apply Hx, in_or_app. right. now left.
      * intros x. cbn [In]. rewrite Hin, in_app_iff. cbn [In]. split.
        -- intros [<-|[Hx Hnot]]; [tauto|]. split; [tauto|]. tauto.
        -- intros [[<-|Hx] Hnot]; [tauto|].
           destruct (list_eq_dec N.eq_dec t x) as [->|Hne]; [tauto|].
           right. split; [exact Hx|]. intros [H|[H|[]]]; tauto.
Qed.

(** X9: adding never removes or reorders what is stored.  The list after
    [add] is the list before followed by the tokens appended; these are
    pairwise different, they are exactly the new lines that were not stored,
    and the count reported is their number. *)
Theorem add_appends_the_unknown (tokens new : list str) :
  exists appended,
    add_tokens tokens new = (tokens ++ appended, length appended)
    /\ NoDup appended
    /\ (forall x, In x appended <-> In x new /\ ~ In x tokens).
Proof.
  unfold add_tokens.
  destruct (add_loop_spec new tokens tokens 0%nat) as [more H]; [tauto|].
  exists more. exact H.
Qed.

(** X10: uniqueness is kept: a list without duplicates has none after
    [add], whatever lines are added. *)
Theorem add_keeps_tokens_unique (tokens new : list str) :
  NoDup tokens -> NoDup (fst (add_tokens tokens new)).
Proof.
  intros Hnd. unfold add_tokens.
  destruct (add_loop_spec new tokens tokens 0%nat) as [more [Hrun [Happ Hin]]];
    [tauto|].
  rewrite Hrun. cbn [fst].
  apply NoDup_app; [exact Hnd | exact Happ |].
  intros x Hx Hx'. apply Hin in Hx'. tauto.
Qed.

Lemma add_keeps_tokens_unique_witness :
  NoDup [u "abc123"; u "xyz789"]
  /\ fst (add_tokens [u "abc123"; u "xyz789"] [u "xyz789"; u "new"; u "new"])
     = [u "abc123"; u "xyz789"; u "new"]
  /\ NoDup (fst (add_tokens [u "abc123"; u "xyz789"] [u "xyz789"; u "new"; u "new"])).
Proof.
  assert (H : NoDup [u "abc123"; u "xyz789"]).
  { constructor; [|constructor; [intros []|constructor]].
    intros [H|[]]. cbv in H. discriminate H. }
  split; [exact H|]. split; [reflexivity|].
  exact (add_keeps_tokens_unique _ [u "xyz789"; u "new"; u "new"] H).
Defined.

(** ** The tokens a submission yields *)

Lemma lstrip_split (s : str) :
  exists pre, s = pre ++ lstrip s /\ forallb isspace pre = true.
Proof.
  induction s as [|c r [pre [Heq Hpre]]].
  - exists []. split; reflexivity.
  - cbn [lstrip]. destruct (isspace c) eqn:Hc.
    + exists (c :: pre). cbn. rewrite Hc, Hpre. split; [now f_equal|reflexivity].
    + exists []. split; reflexivity.
Qed.

Lemma lstrip_head (s : str) (c : char) (r : str) :
  lstrip s = c :: r -> isspace c = false.
Proof.
  induction s as [|d s IH]; cbn; [discriminate|].
  destruct (isspace d) eqn:Hd; [exact IH|].
  intros H. inversion H; subst. exact Hd.
Qed.

Lemma forallb_lstrip (P : char -> bool) (s : str) :
  forallb P s = true -> forallb P (lstrip s) = true.
Proof.
  intros H. destruct (lstrip_split s) as [pre [Heq _]].
  rewrite Heq, forallb_app in H. apply andb_true_iff in H. tauto.
Qed.

Lemma forallb_rev (P : char -> bool) (s : str) :
  forallb P (rev s) = forallb P s.
Proof.
  induction s as [|c s IH]; [reflexivity|].
  cbn. rewrite forallb_app, IH. cbn. rewrite andb_true_r. apply andb_comm.
Qed.

Lemma forallb_strip (P : char -> bool) (s : str) :
  forallb P s = true -> forallb P (strip s) = true.
Proof.
  intros H. unfold strip. rewrite forallb_rev. apply forallb_lstrip.
  rewrite forallb_rev. apply forallb_lstrip. exact H.
Qed.

(** What [strip] returns is empty or clean at both ends. *)
Lemma strip_ends (s : str) :
  strip s <> [] ->
  match strip s with [] => false | c :: _ => negb (isspace c) end = true
  /\ match rev (strip s) with [] => false | c :: _ => negb (isspace c) end = true.
Proof.
  unfold strip. intros Hne.
  set (a := lstrip s) in *. set (b := lstrip (rev a)) in *.
  rewrite rev_involutive. split.
  - destruct (lstrip_split (rev a)) as [pre [Heq _]]. fold b in Heq.
    apply (f_equal (@rev char)) in Heq.
    rewrite rev_involutive, rev_app_distr in Heq.
    destruct (rev b) as [|c r] eqn:Hb; [congruence|].
    cbn [app] in Heq. unfold a in Heq.
    apply lstrip_head in Heq. now rewrite Heq.
  - destruct b as [|c r] eqn:Hb; [cbn in Hne; congruence|].
    unfold b in Hb. apply lstrip_head in Hb. now rewrite Hb.
Qed.

Lemma splitlines_no_break (n : nat) :
  forall s, (length s <= n)%nat ->
            Forall (fun l => forallb (fun c => negb (is_linebreak c)) l = true)
                   (splitlines s).
Proof.
  induction n as [|n IH]; intros [|c r] Hlen; cbn in *;
    try constructor; try lia.
  destruct (is_linebreak c) eqn:Hc.
  - destruct r as [|d r'].
    + repeat constructor.
    + destruct ((c =? 13) && (d =? 10)); constructor; try reflexivity;
        apply IH; cbn in *; lia.
  - assert (Hrec := IH r ltac:(lia)).
    destruct (splitlines r) as [|l ls].
    + repeat constructor. cbn. now rewrite Hc.
    + inversion Hrec; subst. constructor; [|assumption].
      cbn. rewrite Hc. assumption.
Qed.

(** X11: every token a submission yields is clean: not empty, without
    white space at either end and without a line boundary inside. *)
Theorem new_tokens_are_clean (token_input : str) :
  Forall (fun t => clean t = true) (new_tokens token_input).
Proof.
  unfold new_tokens.
  pose proof (splitlines_no_break (length token_input) token_input (le_n _)) as H.
  induction H as [|l ls Hl _ IH]; cbn [filter map]; [constructor|].
  destruct (strip l) as [|c r] eqn:Hs; [exact IH|].
  cbn [map]. constructor; [|exact IH].
  assert (Hne : strip l <> []) by (rewrite Hs; discriminate).
  destruct (strip_ends l Hne) as [Hhead Hlast].
  unfold clean. rewrite Hhead, Hlast. cbn [andb].
  apply forallb_strip. exact Hl.
Qed.

Lemma lstrip_clean_head (t : str) :
  match t with [] => false | c :: _ => negb (isspace c) end = true ->
  lstrip t = t.
Proof.
  destruct t as [|c r]; [discriminate|]. cbn.
  intros H. apply negb_true_iff in H. now rewrite H.
Qed.

Lemma strip_clean (t : str) : clean t = true -> strip t = t.
Proof.
  unfold clean. intros H.
  apply andb_true_iff in H as [H _]. apply andb_true_iff in H as [Hh Hl].
  unfold strip. rewrite (lstrip_clean_head t Hh), (lstrip_clean_head (rev t) Hl).
  apply rev_involutive.
Qed.

Lemma splitlines_line (t : str) :
  t <> [] -> forallb (fun c => negb (is_linebreak c)) t = true ->
  splitlines t = [t].
Proof.
  induction t as [|c r IH]; [congruence|]. intros _ H.
  cbn in H. apply andb_true_iff in H as [Hc Hr].
  apply negb_true_iff in Hc. cbn [splitlines]. rewrite Hc.
  destruct r as [|d r']; [reflexivity|].
  rewrite IH; [reflexivity | discriminate | exact Hr].
Qed.

Lemma splitlines_first_line (t rest : str) :
  forallb (fun c => negb (is_linebreak c)) t = true ->
  splitlines (t ++ 10 :: rest) = t :: splitlines rest.
Proof.
  induction t as [|c r IH]; intros H.
  - cbn [app splitlines]. change (is_linebreak 10) with true. cbn iota.
    destruct rest as [|d rest']; [reflexivity|].
    change (10 =? 13) with false. reflexivity.
  - cbn in H. apply andb_true_iff in H as [Hc Hr].
    apply negb_true_iff in Hc. cbn [app splitlines]. rewrite Hc.
    rewrite (IH Hr). reflexivity.
Qed.

Lemma clean_parts (t : str) :
  clean t = true ->
  t <> [] /\ forallb (fun c => negb (is_linebreak c)) t = true.
Proof.
  unfold clean. intros H.
  apply andb_true_iff in H as [H Hb]. apply andb_true_iff in H as [Hh _].
  split; [|exact Hb]. destruct t; [discriminate|discriminate].
Qed.

Lemma splitlines_join (tokens : list str) :
  Forall (fun t => clean t = true) tokens ->
  splitlines (join_lines tokens) = tokens.
Proof.
  induction 1 as [|t ts Ht Hts IH]; [reflexivity|].
  destruct (clean_parts t Ht) as [Hne Hnb].
  destruct ts as [|t' ts'].
  - cbn [join_lines]. apply splitlines_line; assumption.
  - change (join_lines (t :: t' :: ts')) with (t ++ 10 :: join_lines (t' :: ts')).
    rewrite splitlines_first_line by exact Hnb. now rewrite IH.
Qed.

(** X17: one token per line: a submission made of clean tokens, one per
    line, yields exactly these tokens, in their order. *)
Theorem new_tokens_of_lines (tokens : list str) :
  Forall (fun t => clean t = true) tokens ->
  new_tokens (join_lines tokens) = tokens.
Proof.
  intros H. unfold new_tokens. rewrite (splitlines_join tokens H).
  induction H as [|t ts Ht _ IH]; [reflexivity|].
  cbn [filter]. rewrite (strip_clean t Ht).
  destruct (clean_parts t Ht) as [Hne _].
  destruct t as [|c r]; [congruence|].
  cbn [map]. rewrite (strip_clean (c :: r) Ht), IH. reflexivity.
Qed.

Lemma new_tokens_of_lines_witness :
  Forall (fun t => clean t = true) [u "abc 123"; u "xyz789"]
  /\ join_lines [u "abc 123"; u "xyz789"] = u "abc 123" ++ [10] ++ u "xyz789"
  /\ new_tokens (u "abc 123" ++ [10] ++ u "xyz789") = [u "abc 123"; u "xyz789"].
Proof.
  assert (H : Forall (fun t => clean t = true) [u "abc 123"; u "xyz789"])
    by (repeat constructor).
  split; [exact H|]. split; [reflexivity|].
  exact (new_tokens_of_lines [u "abc 123"; u "xyz789"] H).
Defined.

(** ** Saving is lossless *)

(** X12: two lists that [save_tokens] would write as the same file are the
    same list: the file determines the tokens, whatever characters they
    hold. *)
Theorem json_dumps_injective (a b : list str) :
  json_dumps a = json_dumps b -> a = b.
Proof.
  intros H. pose proof (loads_dumps a) as Ha. rewrite H, loads_dumps in Ha.
  inversion Ha as [Hmap]. clear - Hmap.
  revert b Hmap. induction a as [|x a IH]; intros [|y b] Hmap;
    try discriminate; [reflexivity|].
  cbn in Hmap. inversion Hmap; subst. f_equal. now apply IH.
Qed.

Lemma json_dumps_injective_witness :
  json_dumps [u "a"; u "b"] = json_dumps ([u "a"] ++ [u "b"])
  /\ [u "a"; u "b"] = [u "a"] ++ [u "b"].
Proof.
  split; [reflexivity|].
  apply (json_dumps_injective [u "a"; u "b"] ([u "a"] ++ [u "b"])). reflexivity.
Defined.

(** ** Testing one token *)

Lemma token_rows_test_miss (E : env) (k : nat) (tokens rows : list str) (w : world) :
  forall i, (k < i \/ i + length rows <= k)%nat ->
            token_rows E (ClickTest k) tokens i rows w = (Ok (tokens, []), w).
Proof.
  induction rows as [|t more IH]; intros i Hk; [reflexivity|].
  cbn [token_rows clicked_delete clicked_test]. cbn [length] in Hk.
  destruct (Nat.eqb_spec k i) as [->|Hne]; [lia|].
  apply IH. lia.
Qed.

Lemma token_rows_test_hit (E : env) (k : nat) (t : str) (tokens rows : list str)
      (w : world) :
  forall i, (i <= k)%nat -> nth_error rows (k - i) = Some t ->
            token_rows E (ClickTest k) tokens i rows w
            = match run_request_for_token E t w with
              | (Ok (ok, st, b), w') => (Ok (tokens, shown_for_test ok st b), w')
              | (Raise e, w') => (Raise e, w')
              end.
Proof.
  induction rows as [|t0 more IH]; intros i Hi Hnth.
  - destruct (k - i)%nat; discriminate.
  - cbn [token_rows clicked_delete clicked_test].
    destruct (Nat.eqb_spec k i) as [->|Hne].
    + rewrite Nat.sub_diag in Hnth. cbn in Hnth. inversion Hnth; subst.
      unfold bind at 1.
      destruct (run_request_for_token E t w) as [[[[ok st] b]|e] w1];
        [|reflexivity].
      unfold bind. rewrite token_rows_test_miss by lia.
      unfold ret, shown_for_test. now rewrite app_nil_r.
    + apply IH; [lia|].
      replace (k - i)%nat with (S (k - S i)) in Hnth by lia. exact Hnth.
Qed.

(** X7: the test button of row [k] runs the vote client once, for the token
    of that row: one request is sent, the list and the token file stay as they
    are, the page shows the success with the status and the body, or the error
    with its text, and an exception of the vote client leaves the page.  For an
    index the list does not have nothing happens. *)
Theorem test_click_runs_one_request (E : env) (tokens : list str) (k : nat) (w : world) :
  (forall t r w',
      nth_error tokens k = Some t ->
      token_list E (ClickTest k) tokens w = (r, w') ->
      tokens_file w' = tokens_file w
      /\ posts w' = S (posts w)
      /\ match r with
         | Ok (tokens', shown) =>
             tokens' = tokens
             /\ exists ok st b,
                  run_request_for_token E t w = (Ok (ok, st, b), w')
                  /\ shown = shown_for_test ok st b
         | Raise e => run_request_for_token E t w = (Raise e, w')
         end)
  /\ ((length tokens <= k)%nat ->
      exists shown, token_list E (ClickTest k) tokens w = (Ok (tokens, shown), w)).
Proof.
  split.
  - intros t r w' Hnth Hrun. unfold token_list in Hrun.
    destruct tokens as [|t0 ts] eqn:Htokens; [destruct k; discriminate|].
    rewrite <- Htokens in *.
    rewrite (token_rows_test_hit E k t tokens tokens w 0) in Hrun;
      [|lia|now rewrite Nat.sub_0_r].
    destruct (run_request_for_token E t w) as [r1 w1] eqn:Hreq.
    destruct (run_request_frame E t w w1 r1 Hreq) as [Ht [Hp _]].
    destruct r1 as [[[ok st] b]|e]; inversion Hrun; subst;
      (split; [exact Ht|]); (split; [exact Hp|]).
    + split; [reflexivity|]. exists ok, st, b. split; reflexivity.
    + reflexivity.
  - intros Hk. unfold token_list. destruct tokens as [|t0 ts] eqn:Htokens.
    + eexists. reflexivity.
    + rewrite <- Htokens in *. exists []. apply token_rows_test_miss. lia.
Qed.

Lemma test_click_runs_one_request_witness :
  exists w',
    token_list E0 (ClickTest 1) [u "abc123"; u "xyz789"] w_empty
    = (Ok ([u "abc123"; u "xyz789"],
           [Success (msg_test_ok (Some 200%nat));
            ShowJson (Parsed (JObj [(u "ok", JBool true)]))]), w')
    /\ tokens_file w' = Absent /\ posts w' = 1%nat.
Proof.
  destruct (token_list E0 (ClickTest 1) [u "abc123"; u "xyz789"] w_empty)
    as [r w'] eqn:Hrun.
  assert (Hr : r = Ok ([u "abc123"; u "xyz789"],
                       [Success (msg_test_ok (Some 200%nat));
                        ShowJson (Parsed (JObj [(u "ok", JBool true)]))]))
    by (cbv in Hrun; inversion Hrun; reflexivity).
  subst r. exists w'. split; [reflexivity|].
  destruct (test_click_runs_one_request E0 [u "abc123"; u "xyz789"] 1 w_empty)
    as [H _].
  destruct (H (u "xyz789") _ w' eq_refl Hrun) as [Ht [Hp _]].
  split; [exact Ht | exact Hp].
Defined.

(** ** Saving and deleting, as the next page run sees them *)

Lemma stored_of_dumps (w : world) (tokens : list str) :
  tokens_file w = Holds (json_dumps tokens) -> stored_tokens w = Some tokens.
Proof.
  intros H. unfold stored_tokens.
  rewrite load_tokens_cases, H, read_back_dumps. apply as_tokens_of_tokens.
Qed.

Lemma save_tokens_frame (tokens : list str) (w w' : world) (r : res unit) :
  save_tokens tokens w = (r, w') ->
  log_file w' = log_file w /\ clock_reads w' = clock_reads w.
Proof.
  unfold save_tokens, write_text.
  destruct (write_faults w) as [|[e|] fs]; intros H; inversion H; subst;
    split; reflexivity.
Qed.

Lemma on_save_click_sink (E : env) (tokens : list str) (token_input : str) (w : world) :
  new_tokens token_input <> [] ->
  sink_ok w = true ->
  exists w',
    on_save_click E tokens token_input w
    = (Ok (fst (add_tokens tokens (new_tokens token_input)),
           [Success (msg_added (snd (add_tokens tokens (new_tokens token_input)))
                               (length (fst (add_tokens tokens (new_tokens token_input)))));
            Rerun]), w')
    /\ sink_ok w' = true
    /\ tokens_file w'
       = Holds (json_dumps (fst (add_tokens tokens (new_tokens token_input))))
    /\ log_read w'
       = log_read w
         ++ entry E (clock_reads w)
                  (u "UI: Added "
                   ++ str_of_nat (snd (add_tokens tokens (new_tokens token_input)))
                   ++ u " tokens").
Proof.
  intros Hnew Hsink. unfold on_save_click.
  destruct (new_tokens token_input) as [|n ns] eqn:Hn; [congruence|].
  destruct (add_tokens tokens (n :: ns)) as [tokens' added]. cbn [fst snd].
  destruct (save_tokens_sink_ok tokens' w Hsink) as [w1 [Hsave H1]].
  unfold bind at 1. rewrite Hsave. unfold bind.
  rewrite append_log_ok by exact H1. unfold ret.
  eexists. split; [reflexivity|].
  split; [apply sink_ok_logged; exact H1|].
  destruct (save_tokens_frame tokens' w w1 _ Hsave) as [Hlog Hclock].
  apply save_tokens_ok in Hsave as [Hfile _].
  split; [exact Hfile|].
  rewrite log_read_logged, Hclock. unfold log_read. now rewrite Hlog.
Qed.

(** X8: what the save button stores is what the next page run loads: for a
    submission with at least one token and a working sink, the handler
    returns the list [add] built, shows the count and the new length, the
    token file then loads as that very list, and the log gains one entry that
    tells the count (not the tokens). *)
Theorem save_click_persists (E : env) (tokens : list str) (token_input : str) (w : world) :
  new_tokens token_input <> [] ->
  sink_ok w = true ->
  exists w',
    on_save_click E tokens token_input w
    = (Ok (fst (add_tokens tokens (new_tokens token_input)),
           [Success (msg_added (snd (add_tokens tokens (new_tokens token_input)))
                               (length (fst (add_tokens tokens (new_tokens token_input)))));
            Rerun]), w')
    /\ stored_tokens w' = Some (fst (add_tokens tokens (new_tokens token_input)))
    /\ log_read w'
       = log_read w
         ++ entry E (clock_reads w)
                  (u "UI: Added "
                   ++ str_of_nat (snd (add_tokens tokens (new_tokens token_input)))
                   ++ u " tokens").
Proof.
  intros Hnew Hsink.
  destruct (on_save_click_sink E tokens token_input w Hnew Hsink)
    as [w' [Hrun [_ [Hfile Hlog]]]].
  exists w'. split; [exact Hrun|]. split; [|exact Hlog].
  apply stored_of_dumps. exact Hfile.
Qed.

Lemma save_click_persists_witness :
  exists w',
    on_save_click E0 [u "abc123"] (u " xyz789 " ++ [10] ++ u "abc123") w_empty
    = (Ok ([u "abc123"; u "xyz789"], [Success (msg_added 1 2); Rerun]), w')
    /\ stored_tokens w' = Some [u "abc123"; u "xyz789"].
Proof.
  destruct (save_click_persists
              E0 [u "abc123"] (u " xyz789 " ++ [10] ++ u "abc123") w_empty)
    as [w' [Hrun [Hstore _]]]; [discriminate | reflexivity |].
  exists w'. split; [exact Hrun | exact Hstore].
Defined.

Lemma token_list_delete_sink (E : env) (k : nat) (tokens : list str) (w : world) :
  (k < length tokens)%nat ->
  sink_ok w = true ->
  exists w',
    token_list E (ClickDelete k) tokens w = (Ok (without k tokens, [Rerun]), w')
    /\ tokens_file w' = Holds (json_dumps (without k tokens))
    /\ sink_ok w' = true.
Proof.
  intros Hk Hsink. rewrite token_list_delete_in_range by exact Hk.
  destruct (save_tokens_sink_ok (without k tokens) w Hsink) as [w1 [Hsave H1]].
  unfold bind at 1. rewrite Hsave. unfold bind.
  rewrite append_log_ok by exact H1. eexists. split; [reflexivity|].
  split; [|apply sink_ok_logged; exact H1].
  apply save_tokens_ok in Hsave as [Hfile _]. exact Hfile.
Qed.

Lemma without_last (tokens : list str) (t : str) :
  without (length tokens) (tokens ++ [t]) = tokens.
Proof.
  unfold without.
  rewrite firstn_app, firstn_all, Nat.sub_diag. cbn [firstn].
  rewrite skipn_all2 by (rewrite length_app; cbn; lia).
  now rewrite !app_nil_r.
Qed.

(** X13: adding a token that is not stored and then deleting the last row
    gives back the list there was: the token goes to the end of the list, the
    delete button of the last row takes out that token and no other, and the
    token file then loads as the original list. *)
Theorem add_then_delete_restores
        (E : env) (tokens : list str) (token_input t : str) (w : world) :
  new_tokens token_input = [t] ->
  ~ In t tokens ->
  sink_ok w = true ->
  exists shown w1 w2,
    on_save_click E tokens token_input w = (Ok (tokens ++ [t], shown), w1)
    /\ stored_tokens w1 = Some (tokens ++ [t])
    /\ token_list E (ClickDelete (length tokens)) (tokens ++ [t]) w1
       = (Ok (tokens, [Rerun]), w2)
    /\ stored_tokens w2 = Some tokens.
Proof.
  intros Hnew Hnot Hsink.
  assert (Hadd : add_tokens tokens (new_tokens token_input) = (tokens ++ [t], 1%nat)).
  { rewrite Hnew. unfold add_tokens. cbn [add_loop].
    destruct (existsb (str_eqb t) tokens) eqn:Ht; [|reflexivity].
    apply existsb_str_eqb in Ht. contradiction. }
  destruct (on_save_click_sink E tokens token_input w) as [w1 [Hrun [H1 [Hfile _]]]];
    [rewrite Hnew; discriminate | exact Hsink |].
  rewrite Hadd in Hrun, Hfile. cbn [fst snd] in Hrun, Hfile.
  destruct (token_list_delete_sink E (length tokens) (tokens ++ [t]) w1)
    as [w2 [Hdel [Hfile2 _]]];
    [rewrite length_app; cbn; lia | exact H1 |].
  rewrite without_last in Hdel, Hfile2.
  eexists. exists w1, w2. split; [exact Hrun|].
  split; [apply stored_of_dumps; exact Hfile|].
  split; [exact Hdel|]. apply stored_of_dumps. exact Hfile2.
Qed.

Lemma add_then_delete_restores_witness :
  exists shown w1 w2,
    on_save_click E0 [u "abc123"] (u "xyz789") w_empty
    = (Ok ([u "abc123"; u "xyz789"], shown), w1)
    /\ token_list E0 (ClickDelete 1) [u "abc123"; u "xyz789"] w1
       = (Ok ([u "abc123"], [Rerun]), w2)
    /\ stored_tokens w2 = Some [u "abc123"].
Proof.
  destruct (add_then_delete_restores E0 [u "abc123"] (u "xyz789") (u "xyz789") w_empty)
    as [shown [w1 [w2 [Hadd [_ [Hdel Hstore]]]]]].
  - reflexivity.
  - intros [H|[]]. cbv in H. discriminate H.
  - reflexivity.
  - exists shown, w1, w2. split; [exact Hadd|]. split; [exact Hdel | exact Hstore].
Defined.

(** ** The request headers *)

Lemma forallb_filter_not (c : char) (s : str) :
  forallb (fun d => negb (d =? c)) (remove_char c s) = true.
Proof.
  unfold remove_char. induction s as [|d s IH]; [reflexivity|].
  cbn [filter]. destruct (negb (d =? c)) eqn:Hd; [|exact IH].
  cbn. now rewrite Hd.
Qed.

Lemma forallb_firstn (P : char -> bool) (n : nat) (s : str) :
  forallb P s = true -> forallb P (firstn n s) = true.
Proof.
  revert s. induction n as [|n IH]; intros [|c s] H; try reflexivity.
  cbn in *. apply andb_true_iff in H as [Hc Hs]. now rewrite Hc, IH.
Qed.

(** X6: [build_headers] never fails and puts the token, whole, after
    [Bearer] in the [Authorization] header and nowhere else: every other
    header is the same for every token.  The request identifier has at most
    16 characters and no hyphen, and exactly 16 when the identifier drawn has
    that many characters besides hyphens. *)
Theorem headers_carry_token (E : env) (token : str) (w : world) :
  exists h w' rid,
    build_headers E token w = (Ok h, w')
    /\ header (u "Authorization") h = Some (u "Bearer " ++ token)
    /\ header (u "apigw-requestid") h = Some rid
    /\ (length rid <= 16)%nat
    /\ forallb (fun c => negb (c =? 45)) rid = true
    /\ ((16 <= length (remove_char 45%N (uuid4_str E (uuid_draws w))))%nat ->
        length rid = 16%nat)
    /\ forall token' name,
         str_eqb name (u "Authorization") = false ->
         header name (headers_of (uuid4_str E (uuid_draws w)) token')
         = header name h.
Proof.
  eexists. eexists. eexists. split; [reflexivity|].
  split; [reflexivity|]. split; [reflexivity|].
  unfold slice_to. split; [apply firstn_le_length|].
  split; [apply forallb_firstn, forallb_filter_not|].
  split; [intros H; apply firstn_length_le; exact H|].
  intros token' name Hname. unfold headers_of. cbn [header].
  rewrite Hname. reflexivity.
Qed.

Example request_id_of_uuid :
  header (u "apigw-requestid")
         (headers_of (u "123e4567-e89b-12d3-a456-426614174000") (u "abc123"))
  = Some (u "123e4567e89b12d3").
Proof. reflexivity. Qed.

(** ** Deleting keeps the list in order *)

Lemma without_incl (i : nat) :
  forall (tokens : list str) (x : str), In x (without i tokens) -> In x tokens.
Proof.
  unfold without. induction i as [|i IH]; intros [|t ts] x H.
  - exact H.
  - apply in_cons. exact H.
  - exact H.
  - cbn [firstn skipn app] in H. destruct H as [->|H]; [apply in_eq|].
    apply in_cons. exact (IH ts x H).
Qed.

Lemma without_nodup (i : nat) :
  forall tokens : list str, NoDup tokens -> NoDup (without i tokens).
Proof.
  induction i as [|i IH]; intros [|t ts] H.
  - constructor.
  - inversion H; subst. assumption.
  - constructor.
  - inversion H as [|? ? Hnot Hts]; subst.
    change (without (S i) (t :: ts)) with (t :: without i ts).
    constructor; [|apply IH; exact Hts].
    intros Hin. apply without_incl in Hin. contradiction.
Qed.

Lemma token_list_delete_result (E : env) (k : nat) (tokens tokens' : list str)
      (shown : list ui) (w w' : world) :
  token_list E (ClickDelete k) tokens w = (Ok (tokens', shown), w') ->
  tokens' = tokens \/ tokens' = without k tokens.
Proof.
  intros Hrun. destruct (Nat.lt_ge_cases k (length tokens)) as [Hk|Hk].
  - right. rewrite token_list_delete_in_range in Hrun by exact Hk.
    unfold bind at 1 in Hrun.
    destruct (save_tokens (without k tokens) w) as [[[]|e] w1]; [|discriminate].
    unfold bind in Hrun.
    destruct (append_log E _ w1) as [[[]|e] w2]; [|discriminate].
    unfold ret in Hrun. inversion Hrun. reflexivity.
  - left. destruct (token_list_delete_out_of_range E k tokens w Hk) as [s Hs].
    rewrite Hs in Hrun. inversion Hrun. reflexivity.
Qed.

(** X18: a click on a delete button never brings in a token and never
    makes a duplicate: every token of the list afterwards was in the list
    before, and a list without duplicates stays without. *)
Theorem delete_keeps_tokens_unique
        (E : env) (k : nat) (tokens tokens' : list str) (shown : list ui)
        (w w' : world) :
  token_list E (ClickDelete k) tokens w = (Ok (tokens', shown), w') ->
  (forall x, In x tokens' -> In x tokens)
  /\ (NoDup tokens -> NoDup tokens').
Proof.
  intros Hrun.
  destruct (token_list_delete_result E k tokens tokens' shown w w' Hrun)
    as [->| ->].
  - split; auto.
  - split; [apply without_incl | apply without_nodup].
Qed.

Lemma delete_keeps_tokens_unique_witness :
  exists w',
    token_list E0 (ClickDelete 0) [u "abc123"; u "xyz789"] w_empty
    = (Ok ([u "xyz789"], [Rerun]), w')
    /\ forall x, In x [u "xyz789"] -> In x [u "abc123"; u "xyz789"].
Proof.
  destruct (token_list E0 (ClickDelete 0) [u "abc123"; u "xyz789"] w_empty)
    as [r w'] eqn:Hrun.
  assert (Hr : r = Ok ([u "xyz789"], [Rerun]))
    by (cbv in Hrun; inversion Hrun; reflexivity).
  subst r. exists w'. split; [reflexivity|].
  destruct (delete_keeps_tokens_unique E0 0 _ _ _ _ _ Hrun) as [H _].
  exact H.
Defined.

(** ** The scheduler thread *)

Lemma before_spec (a b : instant) :
  before a b = true
  <-> day a < day b \/ (day a = day b /\ second a < second b).
Proof.
  unfold before.
  rewrite orb_true_iff, andb_true_iff, !N.ltb_lt, N.eqb_eq. reflexivity.
Qed.

Lemma before_false (a b : instant) :
  before a b = false
  <-> day b < day a \/ (day a = day b /\ second b <= second a).
Proof.
  rewrite <- not_true_iff_false, before_spec. lia.
Qed.

Lemma should_run_spec (next_run t : instant) :
  should_run next_run t = true <-> before t next_run = false.
Proof. unfold should_run. apply negb_true_iff. Qed.

Lemma next_due_cases (at_time : N) (t : instant) :
  (second t < at_time /\ next_due at_time t = At (day t) at_time)
  \/ (at_time <= second t /\ next_due at_time t = At (day t + 1) at_time).
Proof.
  unfold next_due. destruct (N.ltb_spec (second t) at_time); [left|right]; auto.
Qed.

(** A poll that does not reach the next run leaves it the first configured
    instant to come. *)
Lemma next_due_same (at_time : N) (p q : instant) :
  before p q = true ->
  before q (next_due at_time p) = true ->
  next_due at_time q = next_due at_time p.
Proof.
  rewrite !before_spec.
  destruct (next_due_cases at_time p) as [[Hp ->] | [Hp ->]];
    destruct (next_due_cases at_time q) as [[Hq ->] | [Hq ->]];
    cbn [day second]; intros H1 H2; f_equal; lia.
Qed.

Lemma on_time_cons (at_time : N) (p q : instant) (rest : list instant) :
  on_time at_time p (q :: rest) = true ->
  before p q = true
  /\ day q <= day (next_due at_time p)
  /\ on_time at_time q rest = true.
Proof.
  cbn [on_time]. rewrite !andb_true_iff, N.leb_le. tauto.
Qed.

Lemma firings_cons (at_time : N) (p q : instant) (rest : list instant) :
  before p q = true ->
  firings at_time (next_due at_time p) (q :: rest)
  = if should_run (next_due at_time p) q
    then q :: firings at_time (next_due at_time q) rest
    else firings at_time (next_due at_time q) rest.
Proof.
  intros Hpq. cbn [firings].
  destruct (should_run (next_due at_time p) q) eqn:Hrun; [reflexivity|].
  unfold should_run in Hrun. apply negb_false_iff in Hrun.
  now rewrite (next_due_same at_time p q Hpq Hrun).
Qed.

(** With polls on time, the job fires at a poll, not before the configured
    time of the day, and only on a day whose configured instant comes after
    the instant [p] the polls started from. *)
Lemma firings_sound (at_time : N) (polls : list instant) :
  forall p f,
    on_time at_time p polls = true ->
    In f (firings at_time (next_due at_time p) polls) ->
    In f polls /\ at_time <= second f
    /\ before p (At (day f) at_time) = true.
Proof.
  induction polls as [|q rest IH]; intros p f Hon Hin; [destruct Hin|].
  apply on_time_cons in Hon as [Hpq [Hday Hon]].
  rewrite (firings_cons at_time p q rest Hpq) in Hin.
  assert (Hrest : In f (firings at_time (next_due at_time q) rest) ->
                  In f (q :: rest) /\ at_time <= second f
                  /\ before p (At (day f) at_time) = true).
  { intros H. destruct (IH q f Hon H) as [H1 [H2 H3]].
    split; [now apply in_cons|]. split; [exact H2|].
    rewrite before_spec in *. cbn [day second] in *. lia. }
  destruct (should_run (next_due at_time p) q) eqn:Hrun; [|auto].
  destruct Hin as [<- | Hin]; [|auto].
  apply should_run_spec in Hrun. rewrite before_false in Hrun.
  split; [apply in_eq|]. rewrite before_spec in *.
  destruct (next_due_cases at_time p) as [[Hp Heq] | [Hp Heq]];
    rewrite Heq in *; cbn [day second] in *; lia.
Qed.

(** Never twice in one day. *)
Lemma firings_days_differ (at_time : N) (polls : list instant) :
  forall p,
    on_time at_time p polls = true ->
    NoDup (map day (firings at_time (next_due at_time p) polls)).
Proof.
  induction polls as [|q rest IH]; intros p Hon; [constructor|].
  pose proof Hon as Hon'.
  apply on_time_cons in Hon as [Hpq [Hday Hon]].
  rewrite (firings_cons at_time p q rest Hpq).
  destruct (should_run (next_due at_time p) q) eqn:Hrun; [|auto].
  cbn [map]. constructor; [|auto].
  intros Hin. apply in_map_iff in Hin as [f [Hf Hin]].
  destruct (firings_sound at_time rest q f Hon Hin) as [_ [_ Hafter]].
  assert (Hq : at_time <= second q).
  { apply (firings_sound at_time (q :: rest) p q Hon').
    rewrite (firings_cons at_time p q rest Hpq), Hrun. apply in_eq. }
  rewrite before_spec in Hafter. cbn [day second] in Hafter. lia.
Qed.

(** Never zero times: a day whose configured instant comes after [p] and is
    reached by a poll has a firing. *)
Lemma firings_complete (at_time : N) (polls : list instant) :
  forall p d,
    on_time at_time p polls = true ->
    before p (At d at_time) = true ->
    (exists q, In q polls /\ before q (At d at_time) = false) ->
    exists f, In f (firings at_time (next_due at_time p) polls) /\ day f = d.
Proof.
  induction polls as [|q rest IH]; intros p d Hon Hp [q' [Hq' Hreached]];
    [destruct Hq'|].
  apply on_time_cons in Hon as [Hpq [Hday Hon]].
  rewrite (firings_cons at_time p q rest Hpq).
  assert (Hnext : before q (At d at_time) = true ->
                  exists f, In f (firings at_time (next_due at_time q) rest)
                            /\ day f = d).
  { intros Hq. apply (IH q d Hon Hq). exists q'. split; [|exact Hreached].
    destruct Hq' as [<- | Hq']; [congruence | exact Hq']. }
  destruct (should_run (next_due at_time p) q) eqn:Hrun.
  - apply should_run_spec in Hrun.
    destruct (N.eq_dec (day q) d) as [Hd | Hd].
    + exists q. split; [apply in_eq | exact Hd].
    + destruct Hnext as [f [Hf Hfd]]; [|exists f; split; [now apply in_cons|exact Hfd]].
      rewrite before_false in Hrun. rewrite before_spec in *.
      destruct (next_due_cases at_time p) as [[Hlt Heq] | [Hlt Heq]];
        rewrite Heq in *; cbn [day second] in *; lia.
  - apply Hnext. unfold should_run in Hrun. apply negb_false_iff in Hrun.
    rewrite before_spec in *.
    destruct (next_due_cases at_time p) as [[Hlt Heq] | [Hlt Heq]];
      rewrite Heq in *; cbn [day second] in *; lia.
Qed.

(** With a working log sink the scheduled job returns, the sink still
    working, the token file untouched, one request sent per stored token. *)
Lemma job_run_all_ok (E : env) (w : world) (tokens : list str) :
  stored_tokens w = Some tokens ->
  sink_ok w = true ->
  exists w',
    job_run_all E w = Some (Ok tt, w')
    /\ sink_ok w' = true
    /\ stored_tokens w' = Some tokens
    /\ posts w' = (posts w + length tokens)%nat.
Proof.
  intros Hstore Hsink. unfold job_run_all. rewrite append_log_ok by exact Hsink.
  set (w1 := logged E (u "JOB_RUN_ALL triggered by scheduler") w).
  assert (H1 : sink_ok w1 = true) by (apply sink_ok_logged; exact Hsink).
  assert (Hstore1 : stored_tokens w1 = Some tokens)
    by (rewrite <- Hstore; apply stored_tokens_same_file; reflexivity).
  rewrite (run_all_tokens_unfold E w1 tokens Hstore1).
  destruct (run_batch_entries E tokens w1 H1) as [results [w' [Hrun [H' _]]]].
  rewrite Hrun. exists w'. split; [reflexivity|]. split; [exact H'|].
  destruct (run_batch_frame E tokens w1 w' (Ok results) Hrun) as [Ht [_ Hp]].
  split; [rewrite <- Hstore1; apply stored_tokens_same_file; exact Ht|].
  exact (Hp results eq_refl).
Qed.

Lemma run_pending_loop_ok (E : env) (at_time : N) (tokens : list str)
      (polls : list instant) :
  forall (next_run : instant) (started : list instant) (w : world),
    stored_tokens w = Some tokens ->
    sink_ok w = true ->
    exists w',
      run_pending_loop E at_time next_run polls started w
      = Some (Ok (started ++ firings at_time next_run polls), w')
      /\ sink_ok w' = true
      /\ posts w'
         = (posts w + length (firings at_time next_run polls) * length tokens)%nat.
Proof.
  induction polls as [|t rest IH]; intros next_run started w Hstore Hsink.
  - exists w. cbn. rewrite app_nil_r. repeat split; [exact Hsink | lia].
  - cbn [run_pending_loop firings].
    destruct (should_run next_run t); [|apply IH; assumption].
    destruct (job_run_all_ok E w tokens Hstore Hsink)
      as [w1 [Hjob [Hsink1 [Hstore1 Hposts]]]].
    rewrite Hjob.
    destruct (IH (next_due at_time t) (started ++ [t]) w1 Hstore1 Hsink1)
      as [w' [Hloop [Hsink' Hposts']]].
    exists w'. rewrite Hloop, <- app_assoc. cbn [app length].
    repeat split; [exact Hsink' | lia].
Qed.

(** C8, as stated, fails: the polls reach 02:00 on two days running, but the
    write of the line that ends the first day's batch fails; the exception
    leaves [run_pending] and the loop, which no [try] guards, and the thread
    is gone.  The second day has no firing: three requests were sent, those
    of the first day, although every later write would have succeeded. *)
Lemma scheduler_stops_after_log_failure :
  on_time (second_of_day SCHEDULE_TIME) (At 0 0) [At 0 7200; At 1 7200] = true
  /\ stored_tokens w_log_hiccup
     = Some [u "token-one-aaaa"; u "token-two-bbbb"; u "token-three-cc"]
  /\ exists w',
       scheduler_loop E0 (At 0 0) [At 0 7200; At 1 7200] w_log_hiccup
       = Some (Raise disk_full, w')
       /\ posts w' = 3%nat
       /\ write_faults w' = [].
Proof.
  split; [reflexivity|]. split; [reflexivity|].
  destruct (scheduler_loop E0 (At 0 0) [At 0 7200; At 1 7200] w_log_hiccup)
    as [[[started|e] w']|] eqn:Hrun;
    [cbv in Hrun; discriminate| |cbv in Hrun; discriminate].
  assert (He : e = disk_full /\ posts w' = 3%nat /\ write_faults w' = [])
    by (cbv in Hrun; inversion Hrun; repeat split; reflexivity).
  destruct He as [-> He]. exists w'. split; [reflexivity | exact He].
Qed.

(** C8, amended: with a stored list of tokens, a working log sink and polls
    on time, the scheduler thread runs until it is stopped and starts the
    job, each start being one batch, exactly once on every calendar day
    whose configured instant comes after the instant of scheduling and is
    reached by a poll: at a poll, not before the configured time of the day,
    never twice in one day, never zero times on such a day, and never on a
    day whose configured instant is not after the instant of scheduling. *)
Theorem scheduler_fires_once_a_day
        (E : env) (w : world) (tokens : list str)
        (start : instant) (polls : list instant) :
  stored_tokens w = Some tokens ->
  sink_ok w = true ->
  on_time (second_of_day SCHEDULE_TIME) start polls = true ->
  exists started w',
    scheduler_loop E start polls w = Some (Ok started, w')
    /\ posts w' = (posts w + length started * length tokens)%nat
    /\ (forall f, In f started ->
          In f polls /\ second_of_day SCHEDULE_TIME <= second f
          /\ before start (At (day f) (second_of_day SCHEDULE_TIME)) = true)
    /\ NoDup (map day started)
    /\ (forall d,
          before start (At d (second_of_day SCHEDULE_TIME)) = true ->
          (exists q, In q polls
                     /\ before q (At d (second_of_day SCHEDULE_TIME)) = false) ->
          exists f, In f started /\ day f = d).
Proof.
  intros Hstore Hsink Hon. unfold scheduler_loop.
  set (at_time := second_of_day SCHEDULE_TIME) in *.
  rewrite append_log_ok by exact Hsink.
  set (w1 := logged E _ w).
  assert (H1 : sink_ok w1 = true) by (apply sink_ok_logged; exact Hsink).
  assert (Hstore1 : stored_tokens w1 = Some tokens)
    by (rewrite <- Hstore; apply stored_tokens_same_file; reflexivity).
  destruct (run_pending_loop_ok E at_time tokens polls (next_due at_time start)
                                [] w1 Hstore1 H1)
    as [w2 [Hloop [H2 Hposts]]].
  rewrite Hloop. cbn [app]. rewrite append_log_ok by exact H2.
  eexists. eexists. split; [reflexivity|].
  split; [exact Hposts|].
  split; [intros f Hf; exact (firings_sound at_time polls start f Hon Hf)|].
  split; [exact (firings_days_differ at_time polls start Hon)|].
  intros d Hd Hq. exact (firings_complete at_time polls start d Hon Hd Hq).
Qed.

Lemma scheduler_fires_once_a_day_witness :
  exists w',
    scheduler_loop E0 (At 0 0)
                   [At 0 7195; At 0 7200; At 0 7205; At 1 7199; At 1 7204] w_three
    = Some (Ok [At 0 7200; At 1 7204], w')
    /\ posts w' = 6%nat.
Proof.
  destruct (scheduler_fires_once_a_day
              E0 w_three [u "token-one-aaaa"; u "token-two-bbbb"; u "token-three-cc"]
              (At 0 0) [At 0 7195; At 0 7200; At 0 7205; At 1 7199; At 1 7204])
    as [started [w' [Hrun [Hposts _]]]]; try reflexivity.
  assert (Hs : started = [At 0 7200; At 1 7204]).
  { assert (H : option_map (fun x => map_res (fun s => s) (fst x))
                  (scheduler_loop E0 (At 0 0)
                     [At 0 7195; At 0 7200; At 0 7205; At 1 7199; At 1 7204] w_three)
                = Some (Ok [At 0 7200; At 1 7204])) by (vm_compute; reflexivity).
    rewrite Hrun in H. cbn in H. congruence. }
  subst started. exists w'. split; [exact Hrun | exact Hposts].
Defined.
